(** * Gemini chatbot: the relay's text extraction, the chat endpoint,
      the browser transport and the markdown renderer

    A shallow embedding of [index.js] (server) and [public/script.js]
    (browser), and the properties stated about them. *)

From Stdlib Require Import List NArith ZArith Bool String Ascii Arith Lia DecimalString.
Import ListNotations.

Set Warnings "-register-all".

(** ** JavaScript strings

    A JavaScript string is a sequence of UTF-16 code units.  Regular
    expressions without the [u] flag, [trim], [split] and [join] all work on
    code units, so this is the representation used throughout. *)

Definition jsstring := list N.

(** A literal written with ASCII characters. *)
Definition u (s : string) : jsstring :=
  map N_of_ascii (list_ascii_of_string s).

Definition nl : N := 10.   (* "\n" *)
Definition dq : N := 34.   (* the double quote *)

Definition str_eqb (a b : jsstring) : bool :=
  if list_eq_dec N.eq_dec a b then true else false.

(** [Array.prototype.join] on strings. *)
Fixpoint join (sep : jsstring) (l : list jsstring) : jsstring :=
  match l with
  | [] => []
  | [x] => x
  | x :: t => x ++ sep ++ join sep t
  end.

(** WhiteSpace and LineTerminator code points of ECMAScript: the set that
    [\s] matches and that [String.prototype.trim] strips. *)
Definition is_space (c : N) : bool :=
  ((9 <=? c) && (c <=? 13) || (c =? 32) || (c =? 160) || (c =? 5760)
   || (8192 <=? c) && (c <=? 8202) || (c =? 8232) || (c =? 8233)
   || (c =? 8239) || (c =? 8287) || (c =? 12288) || (c =? 65279))%N.

(** LineTerminator: "\n", "\r", U+2028, U+2029. *)
Definition is_line_terminator (c : N) : bool :=
  ((c =? 10) || (c =? 13) || (c =? 8232) || (c =? 8233))%N.

Definition is_digit (c : N) : bool := ((48 <=? c) && (c <=? 57))%N.

(** ** JavaScript values

    The values the two programs handle are JSON-like trees, plus
    [undefined].  An object is the list of its own properties in the order
    the engine enumerates them (keys are distinct).  A number is carried as
    the numeral [Number::toString] gives it ("5", "0.5", "NaN", ...): the
    code under study only tests numbers for truthiness and prints them. *)

Inductive value :=
| VUndef
| VNull
| VBool (b : bool)
| VNum (numeral : jsstring)
| VStr (s : jsstring)
| VArr (elems : list value)
| VObj (props : list (jsstring * value)).

(** Evaluation either completes normally or throws a value. *)
Inductive completion (A : Type) :=
| Normal (a : A)
| Throw (e : value).
Arguments Normal {A} a.
Arguments Throw {A} e.

Definition bind {A B} (c : completion A) (f : A -> completion B) : completion B :=
  match c with
  | Normal a => f a
  | Throw e => Throw e
  end.

Notation "x <- c ;; k" := (bind c (fun x => k))
  (at level 61, c at next level, right associativity).

Fixpoint mapM {A B} (f : A -> completion B) (l : list A) : completion (list B) :=
  match l with
  | [] => Normal []
  | a :: t => b <- f a ;; bs <- mapM f t ;; Normal (b :: bs)
  end.

(** [new Error(msg)] and the engine's [TypeError]: objects with a [message]. *)
Definition Error (msg : jsstring) : value := VObj [(u "message", VStr msg)].
Definition TypeError (msg : string) : value := Error (u msg).

(** The property names the sources read. *)
Inductive field :=
| F_response | F_candidates | F_content | F_parts | F_text
| F_messages | F_role | F_error | F_result | F_message.

Definition field_name (f : field) : jsstring :=
  match f with
  | F_response => u "response"
  | F_candidates => u "candidates"
  | F_content => u "content"
  | F_parts => u "parts"
  | F_text => u "text"
  | F_messages => u "messages"
  | F_role => u "role"
  | F_error => u "error"
  | F_result => u "result"
  | F_message => u "message"
  end.

Fixpoint lookup (k : jsstring) (props : list (jsstring * value)) : value :=
  match props with
  | [] => VUndef
  | (k', v) :: t => if str_eqb k k' then v else lookup k t
  end.

Definition nullish (v : value) : bool :=
  match v with
  | VUndef | VNull => true
  | _ => false
  end.

(** ToBoolean. *)
Definition truthy (v : value) : bool :=
  match v with
  | VUndef | VNull => false
  | VBool b => b
  | VNum n => negb (str_eqb n (u "0") || str_eqb n (u "NaN"))
  | VStr s => match s with [] => false | _ => true end
  | VArr _ | VObj _ => true
  end.

(** ToString. *)
Fixpoint toString (v : value) : jsstring :=
  match v with
  | VUndef => u "undefined"
  | VNull => u "null"
  | VBool true => u "true"
  | VBool false => u "false"
  | VNum n => n
  | VStr s => s
  | VArr l =>
      join (u ",") (map (fun e => if nullish e then [] else toString e) l)
  | VObj _ => u "[object Object]"
  end.

(** [v.f] for [v] that is neither [null] nor [undefined]: none of the names
    in [field] is a property of arrays, strings, numbers or booleans. *)
Definition get (v : value) (f : field) : value :=
  match v with
  | VObj props => lookup (field_name f) props
  | _ => VUndef
  end.

(** [v[0]] for [v] that is neither [null] nor [undefined]. *)
Definition get0 (v : value) : value :=
  match v with
  | VArr (x :: _) => x
  | VStr (c :: _) => VStr [c]
  | VObj props => lookup (u "0") props
  | _ => VUndef
  end.

(** [v?.f] and [v?.[0]]. *)
Definition opt (v : value) (f : field) : value :=
  if nullish v then VUndef else get v f.

Definition opt0 (v : value) : value :=
  if nullish v then VUndef else get0 v.

(** [v.f]: throws on [null] and [undefined] (the message is V8's). *)
Definition member (v : value) (f : field) : completion value :=
  if nullish v
  then Throw (Error (u "Cannot read properties of " ++ toString v
                       ++ u " (reading '" ++ field_name f ++ u "')"))
  else Normal (get v f).

(** [a ?? b]: [b] is evaluated only when [a] is nullish. *)
Definition coalesce (a : value) (b : completion value) : completion value :=
  if nullish a then b else Normal a.

(** [Array.prototype.join(sep)] on an array of values. *)
Definition join_values (sep : jsstring) (l : list value) : jsstring :=
  join sep (map (fun e => if nullish e then [] else toString e) l).

(** ** JSON.stringify(value, null, 2) *)

Definition hex_digit (n : N) : N :=
  (if n <? 10 then 48 + n else 87 + n)%N.

Definition hex4 (c : N) : jsstring :=
  [hex_digit (c / 4096 mod 16); hex_digit (c / 256 mod 16);
   hex_digit (c / 16 mod 16); hex_digit (c mod 16)]%N.

Definition unicode_escape (c : N) : jsstring := u "\u" ++ hex4 c.

Definition is_lead (c : N) : bool := ((55296 <=? c) && (c <=? 56319))%N.
Definition is_trail (c : N) : bool := ((56320 <=? c) && (c <=? 57343))%N.

(** QuoteJSONString without the surrounding quotes: a surrogate is kept
    only when it is half of a pair. *)
Fixpoint quote_body (s : jsstring) : jsstring :=
  match s with
  | [] => []
  | c :: t =>
      if (c =? 8)%N then u "\b" ++ quote_body t
      else if (c =? 9)%N then u "\t" ++ quote_body t
      else if (c =? 10)%N then u "\n" ++ quote_body t
      else if (c =? 12)%N then u "\f" ++ quote_body t
      else if (c =? 13)%N then u "\r" ++ quote_body t
      else if (c =? 34)%N then [92; 34]%N ++ quote_body t
      else if (c =? 92)%N then [92; 92]%N ++ quote_body t
      else if (c <? 32)%N then unicode_escape c ++ quote_body t
      else if is_lead c then
        match t with
        | d :: t' =>
            if is_trail d then c :: d :: quote_body t'
            else unicode_escape c ++ quote_body t
        | [] => unicode_escape c
        end
      else if is_trail c then unicode_escape c ++ quote_body t
      else c :: quote_body t
  end.

Definition QuoteJSONString (s : jsstring) : jsstring :=
  [dq] ++ quote_body s ++ [dq].

Definition gap : jsstring := u "  ".

(** SerializeJSONProperty: [None] stands for [undefined]. *)
Fixpoint SerializeJSONProperty (indent : jsstring) (v : value) : option jsstring :=
  match v with
  | VUndef => None
  | VNull => Some (u "null")
  | VBool true => Some (u "true")
  | VBool false => Some (u "false")
  | VNum n =>
      if str_eqb n (u "NaN") || str_eqb n (u "Infinity")
         || str_eqb n (u "-Infinity")
      then Some (u "null") else Some n
  | VStr s => Some (QuoteJSONString s)
  | VArr l =>
      let stepback := indent in
      let indent := indent ++ gap in
      let partial :=
        map (fun e =>
               match SerializeJSONProperty indent e with
               | Some s => s
               | None => u "null"
               end) l in
      match partial with
      | [] => Some (u "[]")
      | _ => Some (u "[" ++ [nl] ++ indent
                     ++ join (u "," ++ [nl] ++ indent) partial
                     ++ [nl] ++ stepback ++ u "]")
      end
  | VObj props =>
      let stepback := indent in
      let indent := indent ++ gap in
      let partial :=
        flat_map (fun '(k, e) =>
                    match SerializeJSONProperty indent e with
                    | Some s => [QuoteJSONString k ++ u ": " ++ s]
                    | None => []
                    end) props in
      match partial with
      | [] => Some (u "{}")
      | _ => Some (u "{" ++ [nl] ++ indent
                     ++ join (u "," ++ [nl] ++ indent) partial
                     ++ [nl] ++ stepback ++ u "}")
      end
  end.

Definition JSON_stringify (v : value) : value :=
  match SerializeJSONProperty [] v with
  | Some s => VStr s
  | None => VUndef
  end.

(** ** index.js: extractText *)

(** [root?.candidates?.[0]?.content?.parts] *)
Definition parts_of (root : value) : value :=
  opt (opt (opt0 (opt root F_candidates)) F_content) F_parts.

(** [root?.candidates?.[0]?.content?.parts?.[0]?.text] *)
Definition first_text (root : value) : value :=
  opt (opt0 (parts_of root)) F_text.

(** [parts?.map((p) => p.text).filter(Boolean).join("\n")]: the optional call
    short-circuits the whole chain on a nullish [parts]; anything else that
    is not an array has no [map] method, and calling it throws. *)
Definition joined_text (parts : value) : completion value :=
  if nullish parts then Normal VUndef
  else
    match parts with
    | VArr l =>
        texts <- mapM (fun p => member p F_text) l ;;
        Normal (VStr (join_values [nl] (filter truthy texts)))
    | _ => Throw (TypeError "parts.map is not a function")
    end.

(** The expression bound to [text] inside the [try] block. *)
Definition extractText_body (resp : value) : completion value :=
  coalesce (first_text (opt resp F_response))
    (coalesce (first_text resp)
       (t3 <- joined_text (parts_of (opt resp F_response)) ;;
        coalesce t3 (joined_text (parts_of resp)))).

Definition extractText (resp : value) : completion value :=
  match extractText_body resp with
  | Normal text => coalesce text (Normal (JSON_stringify resp))
  | Throw _ => Normal (JSON_stringify resp)
  end.

(** ** index.js: POST /api/chat *)

(** [a || b] *)
Definition or_else (a b : value) : value := if truthy a then a else b.

(** [process.env]: each variable is [undefined] or a string. *)
Record environment := {
  env_GEMINI_API_KEY : value;
  env_API_KEY : value;
  env_GEMINI_MODEL : value
}.

Definition API_KEY (env : environment) : value :=
  or_else (env_GEMINI_API_KEY env) (env_API_KEY env).

Definition GEMINI_MODEL (env : environment) : value :=
  or_else (env_GEMINI_MODEL env) (VStr (u "gemini-2.5-flash")).

(** The provider's client library is external: which call style the client
    object offers, and what the awaited call gives for a model name and the
    contents (a provider response, or a rejection). *)
Inductive client_style := NewerStyle | OlderStyle | UnsupportedStyle.

Record provider := {
  style : client_style;
  generateContent : value -> list value -> completion value
}.

Record response := { status : N; body : value }.

(** [getClient()]: [None] is [null]. *)
Definition getClient (env : environment) (p : provider) : option provider :=
  if negb (truthy (API_KEY env)) then None else Some p.

(** [{ role: m.role, parts: [{ text: m.content }] }] *)
Definition to_contents (m : value) : completion value :=
  r <- member m F_role ;;
  c <- member m F_content ;;
  Normal (VObj [(u "role", r); (u "parts", VArr [VObj [(u "text", c)]])]).

(** The [try] block of the handler; [req_body] is [req.body]. *)
Definition chat_try (env : environment) (p : provider) (req_body : value)
  : completion response :=
  let messages := get (or_else req_body (VObj [])) F_messages in
  match messages with
  | VArr ms =>
      match getClient env p with
      | None =>
          Normal {| status := 503;
                    body := VObj [(u "error",
                      VStr (u "Missing GEMINI_API_KEY (or API_KEY) in environment."))] |}
      | Some client =>
          contents <- mapM to_contents ms ;;
          resp <- match style client with
                  | NewerStyle | OlderStyle =>
                      generateContent client (GEMINI_MODEL env) contents
                  | UnsupportedStyle =>
                      Throw (Error (u "Unsupported Gemini client instance"))
                  end ;;
          result <- extractText resp ;;
          Normal {| status := 200; body := VObj [(u "result", result)] |}
      end
  | _ => Throw (Error (u "messages must be an array"))
  end.

(** The handler: a [Throw] here would be an unhandled rejection. *)
Definition chat (env : environment) (p : provider) (req_body : value)
  : completion response :=
  match chat_try env p req_body with
  | Normal r => Normal r
  | Throw err =>
      msg <- member err F_message ;;
      Normal {| status := 500; body := VObj [(u "error", msg)] |}
  end.

(** ** Regular expressions

    The renderer is a chain of [String.prototype.replace] calls with regular
    expressions.  Its strings are modelled with a provenance mark on every
    code unit, which no operation reads: patterns and tests see [code] only. *)

Inductive provenance :=
| Raw        (* copied from the untrusted input *)
| Escaped    (* written by the escaping step *)
| Markup.    (* written by the renderer's templates *)

Record char := { code : N; origin : provenance }.

Definition text := list char.

Definition plain (t : text) : jsstring := map code t.

Definition from (o : provenance) (s : jsstring) : text :=
  map (fun c => {| code := c; origin := o |}) s.

(** A string literal of the renderer. *)
Definition markup (s : string) : text := from Markup (u s).

Definition ch (a : ascii) : N := N_of_ascii a.

(** What can stand inside a character class. *)
Inductive class_item :=
| CChar (c : N)
| CSpace        (* \s *)
| CNonSpace     (* \S *)
| CDigit.       (* \d *)

Definition item_matches (i : class_item) (c : N) : bool :=
  match i with
  | CChar d => (c =? d)%N
  | CSpace => is_space c
  | CNonSpace => negb (is_space c)
  | CDigit => is_digit c
  end.

Inductive regex :=
| Chr (c : N)                        (* a literal character *)
| Dot                                (* .  (no s flag) *)
| OneOf (items : list class_item)    (* [...], also \s and \d alone *)
| NoneOf (items : list class_item)   (* [^...] *)
| Seq (r1 r2 : regex)
| Alt (r1 r2 : regex)
| Repeat (r : regex) (min : nat) (max : option nat) (greedy : bool)
| Group (i : nat) (r : regex)        (* the i-th capturing group *)
| NonCapture (r : regex)             (* (?:...) *)
| Bol                                (* ^ *)
| Eol.                               (* $ *)

Fixpoint seq (l : list regex) : regex :=
  match l with
  | [] => Repeat Dot 0 (Some 0) true
  | [r] => r
  | r :: t => Seq r (seq t)
  end.

(** A run of literal characters. *)
Definition lit (s : string) : regex := seq (map Chr (u s)).

Definition star r := Repeat r 0 None true.
Definition plus r := Repeat r 1 None true.
Definition lazy_star r := Repeat r 0 None false.
Definition lazy_plus r := Repeat r 1 None false.
Definition opt_ r := Repeat r 0 (Some 1) true.

(** The state of a match (ECMAScript's MatchState): the character before the
    current position, the input from the current position on, and the
    captures. *)
Record mstate := {
  prev : option char;
  rest : text;
  caps : nat -> option text
}.

Definition continuation := mstate -> option mstate.
Definition matcher := mstate -> continuation -> option mstate.

Definition or_try (a b : option mstate) : option mstate :=
  match a with
  | Some y => Some y
  | None => b
  end.

Definition match_char (test : N -> bool) : matcher :=
  fun x k =>
    match rest x with
    | c :: t =>
        if test (code c)
        then k {| prev := Some c; rest := t; caps := caps x |}
        else None
    | [] => None
    end.

Definition set_cap (i : nat) (t : text) (y : mstate) : mstate :=
  {| prev := prev y; rest := rest y;
     caps := fun j => if Nat.eqb j i then Some t else caps y j |}.

(** The part of the input consumed between two states. *)
Definition consumed (x y : mstate) : text :=
  firstn (List.length (rest x) - List.length (rest y)) (rest x).

Definition dec (max : option nat) : option nat :=
  match max with
  | Some n => Some (Nat.pred n)
  | None => None
  end.

(** RepeatMatcher.  An iteration that is not required and consumes nothing
    is rejected, so [fuel] above [min] plus the remaining length is never
    used up. *)
Fixpoint repeat_matcher (m : matcher) (greedy : bool) (fuel : nat)
    (min : nat) (max : option nat) : matcher :=
  fun x k =>
    match fuel with
    | O => None
    | S fuel' =>
        match max with
        | Some O => k x
        | _ =>
            let d : continuation := fun y =>
              if Nat.eqb min 0 && Nat.eqb (List.length (rest y)) (List.length (rest x))
              then None
              else repeat_matcher m greedy fuel' (Nat.pred min) (dec max) y k in
            if negb (Nat.eqb min 0) then m x d
            else if greedy then or_try (m x d) (k x)
            else or_try (k x) (m x d)
        end
    end.

Section Matcher.
(** The [m] flag. *)
Variable multiline : bool.

Fixpoint compile (r : regex) : matcher :=
  match r with
  | Chr c => match_char (N.eqb c)
  | Dot => match_char (fun c => negb (is_line_terminator c))
  | OneOf items => match_char (fun c => existsb (fun i => item_matches i c) items)
  | NoneOf items =>
      match_char (fun c => negb (existsb (fun i => item_matches i c) items))
  | Seq r1 r2 => fun x k => compile r1 x (fun y => compile r2 y k)
  | Alt r1 r2 => fun x k => or_try (compile r1 x k) (compile r2 x k)
  | Repeat r' min max greedy =>
      fun x k =>
        repeat_matcher (compile r') greedy (S (min + List.length (rest x)))
          min max x k
  | Group i r' =>
      fun x k => compile r' x (fun y => k (set_cap i (consumed x y) y))
  | NonCapture r' => compile r'
  | Bol =>
      fun x k =>
        match prev x with
        | None => k x
        | Some c =>
            if multiline && is_line_terminator (code c) then k x else None
        end
  | Eol =>
      fun x k =>
        match rest x with
        | [] => k x
        | c :: _ =>
            if multiline && is_line_terminator (code c) then k x else None
        end
  end.

(** One attempt at the current position. *)
Definition match_here (r : regex) (p : option char) (s : text) : option mstate :=
  compile r {| prev := p; rest := s; caps := fun _ => None |} Some.

(** [$n] in a template and the n-th argument of a replacer function; the
    groups of the patterns below always take part in a match. *)
Definition group (y : mstate) (i : nat) : text :=
  match caps y i with
  | Some t => t
  | None => []
  end.

Definition matched (s : text) (y : mstate) : text :=
  firstn (List.length s - List.length (rest y)) s.

(** A replacer: from the matched text and the groups to the replacement. *)
Definition replacer := text -> (nat -> text) -> text.

(** [s.replace(/r/g, f)]: [skip] counts the characters of the last match
    still to step over. *)
Fixpoint replace_from (r : regex) (f : replacer) (skip : nat)
    (p : option char) (s : text) : text :=
  match skip with
  | S n =>
      match s with
      | [] => []
      | c :: t => replace_from r f n (Some c) t
      end
  | O =>
      match match_here r p s with
      | Some y =>
          f (matched s y) (group y)
            ++ match List.length s - List.length (rest y), s with
               | _, [] => []
               | O, c :: t => c :: replace_from r f 0 (Some c) t
               | S n, c :: t => replace_from r f n (Some c) t
               end
      | None =>
          match s with
          | [] => []
          | c :: t => c :: replace_from r f 0 (Some c) t
          end
      end
  end.

Definition replace_all (r : regex) (f : replacer) (s : text) : text :=
  replace_from r f 0 None s.

(** [s.replace(/r/, f)] without the [g] flag: the first match only. *)
Fixpoint replace_first_from (r : regex) (f : replacer)
    (p : option char) (s : text) : text :=
  match match_here r p s with
  | Some y => f (matched s y) (group y) ++ rest y
  | None =>
      match s with
      | [] => []
      | c :: t => c :: replace_first_from r f (Some c) t
      end
  end.

Definition replace_first (r : regex) (f : replacer) (s : text) : text :=
  replace_first_from r f None s.
End Matcher.

(** ** public/script.js: sanitize and renderMarkdown *)

(** [String.prototype.trim], on any representation of characters. *)
Section Trim.
Context {A : Type}.
Variable code_of : A -> N.

Fixpoint trim_start_by (s : list A) : list A :=
  match s with
  | [] => []
  | c :: t => if is_space (code_of c) then trim_start_by t else s
  end.

Definition trim_by (s : list A) : list A :=
  rev (trim_start_by (rev (trim_start_by s))).
End Trim.

Definition trim : text -> text := trim_by code.
Definition str_trim : jsstring -> jsstring := trim_by (fun c => c).

(** [s.split(/\n/)] *)
Fixpoint split_lines (s : text) : list text :=
  match s with
  | [] => [[]]
  | c :: t =>
      if (code c =? nl)%N then [] :: split_lines t
      else match split_lines t with
           | l :: ls => (c :: l) :: ls
           | [] => [[c]]
           end
  end.

(** [line.startsWith("<")] *)
Definition starts_with_lt (line : text) : bool :=
  match line with
  | c :: _ => (code c =? ch "<")%N
  | [] => false
  end.

(** [div.textContent = str; return div.innerHTML]: the HTML serialisation of
    a text node escapes "&", "<", ">" and the no-break space. *)
Definition escape_char (c : N) : text :=
  if (c =? ch "&")%N then from Escaped (u "&amp;")
  else if (c =? ch "<")%N then from Escaped (u "&lt;")
  else if (c =? ch ">")%N then from Escaped (u "&gt;")
  else if (c =? 160)%N then from Escaped (u "&nbsp;")
  else [{| code := c; origin := Raw |}].

Definition sanitize (str : jsstring) : text := flat_map escape_char str.

(** "[\s\S]" *)
Definition any_char : regex := OneOf [CSpace; CNonSpace].

(** "/```([\s\S]*?)```/g" *)
Definition re_fence : regex :=
  seq [lit "```"; Group 1 (lazy_star any_char); lit "```"].

(** "/</g" *)
Definition re_lt : regex := Chr (ch "<").

(** "/`([^`]+)`/g" *)
Definition re_inline_code : regex :=
  seq [Chr (ch "`"); Group 1 (plus (NoneOf [CChar (ch "`")])); Chr (ch "`")].

(** The heading patterns (flags gm): "^", then the hashes, "\s+", the group
    "(.*" ")" and "$". *)
Definition re_heading (hashes : string) : regex :=
  seq [Bol; lit hashes; plus (OneOf [CSpace]); Group 1 (star Dot); Eol].

(** "/\*\*([^*]+)\*\*/g", "/\*([^*]+)\*/g", "/__([^_]+)__/g", "/_([^_]+)_/g" *)
Definition re_emphasis (delim : string) (c : ascii) : regex :=
  seq [lit delim; Group 1 (plus (NoneOf [CChar (ch c)])); lit delim].

(** "https?:\/\/[^)\s]+" *)
Definition re_address : regex :=
  seq [lit "http"; opt_ (Chr (ch "s")); lit "://";
       plus (NoneOf [CChar (ch ")"); CSpace])].

(** "/\[([^\]]+)\]\((https?:\/\/[^)\s]+)\)/g" *)
Definition re_link : regex :=
  seq [Chr (ch "["); Group 1 (plus (NoneOf [CChar (ch "]")])); Chr (ch "]");
       Chr (ch "("); Group 2 re_address; Chr (ch ")")].

(** "[-*+]" *)
Definition bullet : regex := OneOf [CChar (ch "-"); CChar (ch "*"); CChar (ch "+")].

(** "/^(?:[-*+]\s.+(?:\n|$))+?/gm" *)
Definition re_ul : regex :=
  seq [Bol;
       lazy_plus (NonCapture (seq [bullet; OneOf [CSpace]; plus Dot;
                                   NonCapture (Alt (Chr nl) Eol)]))].

(** "/^[-*+]\s+/" *)
Definition re_ul_marker : regex := seq [Bol; bullet; plus (OneOf [CSpace])].

(** "/^(?:\d+\.\s.+(?:\n|$))+?/gm" *)
Definition re_ol : regex :=
  seq [Bol;
       lazy_plus (NonCapture (seq [plus (OneOf [CDigit]); Chr (ch ".");
                                   OneOf [CSpace]; plus Dot;
                                   NonCapture (Alt (Chr nl) Eol)]))].

(** "/^\d+\.\s+/" *)
Definition re_ol_marker : regex :=
  seq [Bol; plus (OneOf [CDigit]); Chr (ch "."); plus (OneOf [CSpace])].

(** "/\n{2,}/g" *)
Definition re_blank_lines : regex := Repeat (Chr nl) 2 None true.

(** "/^(.+?)$/gm" *)
Definition re_line : regex := seq [Bol; Group 1 (lazy_plus Dot); Eol].

(** A replacement template that wraps [$1]. *)
Definition wrap1 (open close : string) : replacer :=
  fun _ g => markup open ++ g 1 ++ markup close.

Definition quot : text := from Markup [dq].

(** The link template: an anchor with href $2, target _blank and rel
    noopener noreferrer, around $1. *)
Definition link_template : replacer :=
  fun _ g =>
    markup "<a href=" ++ quot ++ g 2 ++ quot
      ++ markup " target=" ++ quot ++ markup "_blank" ++ quot
      ++ markup " rel=" ++ quot ++ markup "noopener noreferrer" ++ quot
      ++ markup ">" ++ g 1 ++ markup "</a>".

(** The replacer of the two list steps. *)
Definition list_block (marker : regex) (open close : string) : replacer :=
  fun block _ =>
    let items :=
      List.concat
        (map (fun li => markup "<li>" ++ li ++ markup "</li>")
           (map (fun l => trim (replace_first false marker (fun _ _ => []) l))
              (split_lines (trim block)))) in
    markup open ++ items ++ markup close.

Definition code_fences (s : text) : text :=
  replace_all false re_fence
    (fun _ g =>
       markup "<pre><code>"
         ++ replace_all false re_lt (fun _ _ => markup "&lt;") (g 1)
         ++ markup "</code></pre>") s.

Definition inline_code (s : text) : text :=
  replace_all false re_inline_code (wrap1 "<code>" "</code>") s.

Definition headings (s : text) : text :=
  replace_all true (re_heading "#") (wrap1 "<h1>" "</h1>")
    (replace_all true (re_heading "##") (wrap1 "<h2>" "</h2>")
       (replace_all true (re_heading "###") (wrap1 "<h3>" "</h3>") s)).

Definition emphasis (s : text) : text :=
  replace_all false (re_emphasis "_" "_") (wrap1 "<em>" "</em>")
    (replace_all false (re_emphasis "__" "_") (wrap1 "<strong>" "</strong>")
       (replace_all false (re_emphasis "*" "*") (wrap1 "<em>" "</em>")
          (replace_all false (re_emphasis "**" "*")
             (wrap1 "<strong>" "</strong>") s))).

Definition links (s : text) : text :=
  replace_all false re_link link_template s.

Definition unordered_lists (s : text) : text :=
  replace_all true re_ul (list_block re_ul_marker "<ul>" "</ul>") s.

Definition ordered_lists (s : text) : text :=
  replace_all true re_ol (list_block re_ol_marker "<ol>" "</ol>") s.

Definition paragraphs (s : text) : text :=
  replace_all true re_line
    (fun line _ =>
       if starts_with_lt line then line
       else markup "<span>" ++ line ++ markup "</span>")
    (replace_all false re_blank_lines (fun _ _ => markup "</p><p>") s).

(** [renderMarkdown(raw, { isUser })]; [isUser] is not read. *)
Definition renderMarkdown (raw : jsstring) (isUser : bool) : text :=
  let s := sanitize raw in
  let s := code_fences s in
  let s := inline_code s in
  let s := headings s in
  let s := emphasis s in
  let s := links s in
  let s := unordered_lists s in
  let s := ordered_lists s in
  let s := paragraphs s in
  markup "<p>" ++ s ++ markup "</p>".

(** The string that [renderMarkdown] returns. *)
Definition renderMarkdown_html (raw : jsstring) : jsstring :=
  plain (renderMarkdown raw false).

(** ** public/script.js: the conversation and its transport *)

Inductive role := user | model.

Definition role_name (r : role) : jsstring :=
  match r with
  | user => u "user"
  | model => u "model"
  end.

(** An element of [history]. *)
Record message := { msg_role : role; content : jsstring }.

(** What a chat bubble shows: markup assigned to [innerHTML], or plain text
    assigned to [textContent]. *)
Inductive display :=
| InnerHTML (html : jsstring)
| TextContent (t : jsstring).

(** A message element of the chat box (its timestamp child is left out). *)
Record bubble := {
  className : jsstring;
  shown : display;
  placeholder : bool;
  error_class : bool
}.

(** The page: the [history] array, the children of [chatBox], the input
    control, every request body handed to [fetch], and the console. *)
Record page := {
  history : list message;
  chatBox : list bubble;
  input_value : jsstring;
  input_disabled : bool;
  requests : list (list message);
  console : list value
}.

(** What the network does with a request: [fetch] rejects, or resolves with
    a status and a body that [resp.json()] parses or rejects. *)
Inductive fetch_result :=
| FetchRejected (err : value)
| FetchResponse (status : N) (json : completion value).

(** [resp.ok] *)
Definition ok (status : N) : bool := ((200 <=? status) && (status <=? 299))%N.

(** The decimal numeral of a status code. *)
Definition numeral (n : N) : jsstring := u (NilZero.string_of_uint (N.to_uint n)).

Definition push (m : message) (st : page) : page :=
  {| history := history st ++ [m]; chatBox := chatBox st;
     input_value := input_value st; input_disabled := input_disabled st;
     requests := requests st; console := console st |}.

(** [appendMessage(role, text, opts)]; the element it returns is the last
    child of [chatBox]. *)
Definition appendMessage (r : role) (t : jsstring) (is_placeholder : bool)
    (st : page) : page :=
  let msg :=
    {| className := u "message " ++ match r with
                                    | model => u "bot"
                                    | user => role_name r
                                    end;
       shown := InnerHTML (plain (renderMarkdown t
                                    (match r with user => true | model => false end)));
       placeholder := is_placeholder;
       error_class := false |} in
  {| history := history st; chatBox := chatBox st ++ [msg];
     input_value := input_value st; input_disabled := input_disabled st;
     requests := requests st; console := console st |}.

(** Updates of the element [thinkingEl], the last child of [chatBox]. *)
Definition update_last (f : bubble -> bubble) (st : page) : page :=
  {| history := history st;
     chatBox := match rev (chatBox st) with
                | [] => []
                | b :: before => rev before ++ [f b]
                end;
     input_value := input_value st; input_disabled := input_disabled st;
     requests := requests st; console := console st |}.

Definition set_textContent (t : jsstring) (b : bubble) : bubble :=
  {| className := className b; shown := TextContent t;
     placeholder := placeholder b; error_class := error_class b |}.

Definition add_error_class (b : bubble) : bubble :=
  {| className := className b; shown := shown b;
     placeholder := placeholder b; error_class := true |}.

(** [fetch("/api/chat", { ..., body: JSON.stringify({ messages: history }) })] *)
Definition record_request (st : page) : page :=
  {| history := history st; chatBox := chatBox st;
     input_value := input_value st; input_disabled := input_disabled st;
     requests := requests st ++ [history st]; console := console st |}.

Definition console_error (err : value) (st : page) : page :=
  {| history := history st; chatBox := chatBox st;
     input_value := input_value st; input_disabled := input_disabled st;
     requests := requests st; console := console st ++ [err] |}.

(** The [try] block of [sendMessage] up to the binding of [aiText]; [None]
    is [null]. *)
Definition receive (net : fetch_result) : completion (option jsstring) :=
  match net with
  | FetchRejected err => Throw err
  | FetchResponse status json =>
      data <- match json with
              | Normal d => Normal d
              | Throw _ => Throw (Error (u "Invalid JSON response"))
              end ;;
      if negb (ok status)
      then Throw (Error (toString (or_else (opt data F_error)
                                     (VStr (u "HTTP " ++ numeral status)))))
      else
        Normal (if truthy data
                then match get data F_result with
                     | VStr r =>
                         match str_trim r with
                         | [] => None
                         | t => Some t
                         end
                     | _ => None
                     end
                else None)
  end.

Definition sendMessage (userText : jsstring) (net : fetch_result) (st : page)
  : page :=
  let st := push {| msg_role := user; content := userText |} st in
  let st := appendMessage model (u "Thinking...") true st in
  let st := record_request st in
  match receive net with
  | Normal None =>
      update_last add_error_class
        (update_last (set_textContent (u "Sorry, no response received.")) st)
  | Normal (Some aiText) =>
      push {| msg_role := model; content := aiText |}
        (update_last (set_textContent aiText) st)
  | Throw err =>
      update_last add_error_class
        (update_last (set_textContent (u "Failed to get response from server."))
           (console_error err st))
  end.

(** [setInputEnabled(enabled)] *)
Definition setInputEnabled (enabled : bool) (st : page) : page :=
  {| history := history st; chatBox := chatBox st;
     input_value := input_value st; input_disabled := negb enabled;
     requests := requests st; console := console st |}.

Definition clear_input (st : page) : page :=
  {| history := history st; chatBox := chatBox st;
     input_value := []; input_disabled := input_disabled st;
     requests := requests st; console := console st |}.

(** The submit handler of the form; [net] is what the network answers if a
    request is made. *)
Definition on_submit (net : fetch_result) (st : page) : page :=
  match str_trim (input_value st) with
  | [] => st
  | userText =>
      let st := appendMessage user userText false st in
      let st := clear_input st in
      let st := setInputEnabled false st in
      let st := sendMessage userText net st in
      setInputEnabled true st
  end.

Definition empty_page : page :=
  {| history := []; chatBox := []; input_value := []; input_disabled := false;
     requests := []; console := [] |}.

(** ** index.js: GET /api/health *)

Definition health (env : environment) : response :=
  {| status := 200;
     body := VObj [(u "status", VStr (u "ok"));
                   (u "model", GEMINI_MODEL env);
                   (u "hasKey", VBool (truthy (API_KEY env)))] |}.

(** ** index.js: BASE_PORT and start *)

(** The decimal numeral of an integer. *)
Definition numeral_Z (z : Z) : jsstring :=
  u (NilZero.string_of_int (Z.to_int z)).

Fixpoint leading_digits (s : jsstring) : jsstring :=
  match s with
  | c :: t => if is_digit c then c :: leading_digits t else []
  | [] => []
  end.

(** The value of a run of decimal digits, read after [acc]. *)
Fixpoint digits_value (acc : Z) (s : jsstring) : Z :=
  match s with
  | c :: t => digits_value (10 * acc + (Z.of_N c - 48)) t
  | [] => acc
  end.

(** [parseInt(s, 10)] on a string: leading white space is skipped, a sign
    is read, then the longest run of digits; [None] is NaN.  The integer is
    the mathematical value, which the Number holds exactly below 2^53. *)
Definition parseInt10 (s : jsstring) : option Z :=
  let s := trim_start_by (fun c => c) s in
  let '(sign, s) :=
    match s with
    | c :: t =>
        if (c =? ch "-")%N then ((-1)%Z, t)
        else if (c =? ch "+")%N then (1%Z, t)
        else (1%Z, s)
    | [] => (1%Z, s)
    end in
  match leading_digits s with
  | [] => None
  | digits => Some (sign * digits_value 0 digits)%Z
  end.

(** [parseInt(process.env.PORT, 10) || 3000]; [PORT] is the variable, a
    string or [undefined]. *)
Definition BASE_PORT (PORT : value) : Z :=
  match parseInt10 (toString PORT) with
  | Some z => if (z =? 0)%Z then 3000%Z else z
  | None => 3000%Z
  end.

(** What [app.listen(port)] leads to: the callback runs, or an "error"
    event arrives with [err.code], or the call itself throws (a port out of
    range). *)
Inductive listen_outcome :=
| Listens
| Fails (code : value)
| ListenThrows.

Inductive start_result :=
| Ready (port : Z)     (* the server listens *)
| Exit1                (* process.exit(1) *)
| Crashed.             (* an uncaught exception *)

Record startup := { outcome : start_result; printed : list jsstring }.

Definition address_in_use (code : value) : bool :=
  match code with
  | VStr s => str_eqb s (u "EADDRINUSE")
  | _ => false
  end.

(** What the callback given to [app.listen] prints. *)
Definition listen_callback (env : environment) (port : Z) : list jsstring :=
  (if negb (truthy (API_KEY env))
   then [[nl] ++ u "[WARN] No GEMINI_API_KEY or API_KEY set. Add it to a .env file."]
   else [])
  ++ [u "Server ready on http://localhost:" ++ numeral_Z port].

(** [start(port, attemptsLeft)]; [printed] collects the first argument of
    each console call.  Ports are integers, and [port + 1] is the integer
    sum, as it is for a Number below 2^53.

    [callback_on_error] says whether [app.listen] also registers its
    callback as a one-time listener of the server's "error" event, which
    then runs ahead of the listener that [start] adds: Express 5 does,
    Express 4 does not, and the repository pins no version. *)
Fixpoint start (env : environment) (callback_on_error : bool)
    (listen : Z -> listen_outcome) (port : Z) (attemptsLeft : nat) : startup :=
  match listen port with
  | Listens =>
      {| outcome := Ready port; printed := listen_callback env port |}
  | Fails code =>
      let early :=
        if callback_on_error then listen_callback env port else [] in
      match attemptsLeft with
      | S n =>
          if address_in_use code
          then
            let next := start env callback_on_error listen (port + 1) n in
            {| outcome := outcome next;
               printed :=
                 early
                 ++ (u "Port " ++ numeral_Z port ++ u " in use, trying "
                       ++ numeral_Z (port + 1) ++ u "...") :: printed next |}
          else {| outcome := Exit1;
                  printed := early ++ [u "Failed to start server:"] |}
      | O => {| outcome := Exit1;
                printed := early ++ [u "Failed to start server:"] |}
      end
  | ListenThrows => {| outcome := Crashed; printed := [] |}
  end.

(** [start(BASE_PORT)] *)
Definition boot (env : environment) (callback_on_error : bool) (PORT : value)
    (listen : Z -> listen_outcome) : startup :=
  start env callback_on_error listen (BASE_PORT PORT) 5.

(** ** public/script.js, second script: the earlier submit handler

    The file holds a second, self-contained script (from its line 180 on)
    with its own [history], [appendMessage] and submit handler. *)

(** An element of its [history]: [content] is whatever the reply held. *)
Record turn := { turn_role : role; turn_content : value }.

(** A child of its chat box: a message element with the class [sender] and
    its text, or the float-clearing element after each message. *)
Inductive node :=
| MessageNode (sender : jsstring) (shows : jsstring)
| ClearNode.

Record page2 := {
  history2 : list turn;
  chatBox2 : list node;
  input_value2 : jsstring;
  input_disabled2 : bool;
  requests2 : list (list turn);
  console2 : list value
}.

(** Assigning a value to [textContent]: [null] and [undefined] give the
    empty string, anything else its string conversion. *)
Definition as_text (v : value) : jsstring :=
  if nullish v then [] else toString v.

(** [appendMessage(sender, text)] of the second script. *)
Definition appendMessage2 (sender : jsstring) (t : jsstring) (st : page2) : page2 :=
  {| history2 := history2 st;
     chatBox2 := chatBox2 st ++ [MessageNode sender t; ClearNode];
     input_value2 := input_value2 st; input_disabled2 := input_disabled2 st;
     requests2 := requests2 st; console2 := console2 st |}.

(** [placeholder.textContent = v], the placeholder being the last message
    element, followed by its clearing element. *)
Definition set_placeholder (v : value) (st : page2) : page2 :=
  {| history2 := history2 st;
     chatBox2 :=
       match rev (chatBox2 st) with
       | ClearNode :: MessageNode sender _ :: before =>
           rev before ++ [MessageNode sender (as_text v); ClearNode]
       | _ => chatBox2 st
       end;
     input_value2 := input_value2 st; input_disabled2 := input_disabled2 st;
     requests2 := requests2 st; console2 := console2 st |}.

Definition push2 (m : turn) (st : page2) : page2 :=
  {| history2 := history2 st ++ [m]; chatBox2 := chatBox2 st;
     input_value2 := input_value2 st; input_disabled2 := input_disabled2 st;
     requests2 := requests2 st; console2 := console2 st |}.

Definition set_input2 (v : jsstring) (disabled : bool) (st : page2) : page2 :=
  {| history2 := history2 st; chatBox2 := chatBox2 st;
     input_value2 := v; input_disabled2 := disabled;
     requests2 := requests2 st; console2 := console2 st |}.

Definition record_request2 (st : page2) : page2 :=
  {| history2 := history2 st; chatBox2 := chatBox2 st;
     input_value2 := input_value2 st; input_disabled2 := input_disabled2 st;
     requests2 := requests2 st ++ [history2 st]; console2 := console2 st |}.

Definition console_error2 (err : value) (st : page2) : page2 :=
  {| history2 := history2 st; chatBox2 := chatBox2 st;
     input_value2 := input_value2 st; input_disabled2 := input_disabled2 st;
     requests2 := requests2 st; console2 := console2 st ++ [err] |}.

(** The [try] block of the handler after the call to [fetch]. *)
Definition exchange2 (net : fetch_result) (st : page2) : completion page2 :=
  match net with
  | FetchRejected err => Throw err
  | FetchResponse status json =>
      if negb (ok status)
      then
        let errData := match json with
                       | Normal d => d
                       | Throw _ => VObj []
                       end in
        e <- member errData F_error ;;
        Normal (set_placeholder
                  (or_else e (VStr (u "Error: " ++ numeral status))) st)
      else
        data <- json ;;
        result <- member data F_result ;;
        Normal (push2 {| turn_role := model; turn_content := result |}
                  (set_placeholder result st))
  end.

(** The submit handler of the second script. *)
Definition on_submit2 (net : fetch_result) (st : page2) : page2 :=
  match str_trim (input_value2 st) with
  | [] => st
  | userMessage =>
      let st := appendMessage2 (u "user") userMessage st in
      let st := push2 {| turn_role := user; turn_content := VStr userMessage |} st in
      let st := set_input2 [] true st in
      let st := appendMessage2 (u "bot") (u "Thinking...") st in
      let st := record_request2 st in
      let st :=
        match exchange2 net st with
        | Normal st' => st'
        | Throw err =>
            console_error2 err
              (set_placeholder (VStr (u "Network error")) st)
        end in
      set_input2 (input_value2 st) false st
  end.

Definition empty_page2 : page2 :=
  {| history2 := []; chatBox2 := []; input_value2 := [];
     input_disabled2 := false; requests2 := []; console2 := [] |}.

(** ** public/script.js: the theme *)

(** The [data-theme] attribute of the document element ([None]: absent),
    the text of the toggle button, whether the button carries the class
    "light", and the "chat-theme" entry of [localStorage] ([None]: absent). *)
Record theming := {
  data_theme : option jsstring;
  toggle_text : jsstring;
  toggle_light : bool;
  stored_theme : option jsstring
}.

Definition moon : jsstring := [55356; 57113]%N.   (* U+1F319 *)
Definition sun : jsstring := [9728; 65039]%N.     (* U+2600 U+FE0F *)

(** [applyTheme(theme)] *)
Definition applyTheme (theme : jsstring) (st : theming) : theming :=
  {| data_theme := Some theme;
     toggle_text := if str_eqb theme (u "light") then moon else sun;
     toggle_light := str_eqb theme (u "light");
     stored_theme := Some theme |}.

(** The script's start: the stored theme if there is one and it is not
    empty, else the one the media query asks for. *)
Definition initial_theme (prefers_light : bool) (st : theming) : theming :=
  let storedTheme :=
    match stored_theme st with
    | Some (c :: t) => c :: t
    | _ => if prefers_light then u "light" else u "dark"
    end in
  applyTheme storedTheme st.

(** The click handler of the toggle. *)
Definition toggle_click (st : theming) : theming :=
  let current :=
    match data_theme st with
    | Some t => if str_eqb t (u "light") then u "light" else u "dark"
    | None => u "dark"
    end in
  applyTheme (if str_eqb current (u "light") then u "dark" else u "light") st.

(** * The vocabulary of the properties *)

(** ** Provider responses, requests and replies used as examples *)

(** [{ text: t }] and [{ candidates: [{ content: { parts } }] }] *)
Definition text_part (t : string) : value := VObj [(u "text", VStr (u t))].

Definition candidates_of (parts : list value) : value :=
  VObj [(u "candidates",
         VArr [VObj [(u "content", VObj [(u "parts", VArr parts)])]])].

Definition in_response (v : value) : value := VObj [(u "response", v)].

(** A value is textual when it is nullish or a string. *)
Definition textual (v : value) : bool :=
  match v with
  | VUndef | VNull | VStr _ => true
  | _ => false
  end.

(** No candidate shape yields a value: the [try] block throws, or [text] is
    nullish. *)
Definition yields_nothing (resp : value) : bool :=
  match extractText_body resp with
  | Normal v => nullish v
  | Throw _ => true
  end.

Definition is_array (v : value) : bool :=
  match v with
  | VArr _ => true
  | _ => false
  end.

Definition error_body (msg : string) : value := VObj [(u "error", VStr (u msg))].

Definition no_keys : environment :=
  {| env_GEMINI_API_KEY := VUndef; env_API_KEY := VUndef;
     env_GEMINI_MODEL := VUndef |}.

Definition echo_provider : provider :=
  {| style := NewerStyle;
     generateContent := fun _ contents => Normal (VArr contents) |}.

Definition typing (s : jsstring) (st : page) : page :=
  {| history := history st; chatBox := chatBox st;
     input_value := s; input_disabled := input_disabled st;
     requests := requests st; console := console st |}.

Definition ok_reply (result : string) : fetch_result :=
  FetchResponse 200 (Normal (VObj [(u "result", VStr (u result))])).

Definition user_turn (t : jsstring) : message := {| msg_role := user; content := t |}.
Definition model_turn (t : jsstring) : message := {| msg_role := model; content := t |}.

(** A success reply with a non-empty trimmed result: an ok status and a
    JSON body whose [result] is a string that is not all white space. *)
Definition replied (net : fetch_result) (aiText : jsstring) : Prop :=
  exists status data r,
    net = FetchResponse status (Normal data)
    /\ ok status = true
    /\ get data F_result = VStr r
    /\ str_trim r = aiText
    /\ aiText <> [].

Definition missing_key_reply : fetch_result :=
  FetchResponse 503
    (Normal (error_body "Missing GEMINI_API_KEY (or API_KEY) in environment.")).

(** ** The shape of a match

    [matches r x y]: the pattern [r] can take the state [x] to the state
    [y].  The relation forgets the order in which the matcher tries its
    alternatives; every result of [compile] satisfies it. *)

(** Iterations of a repeated pattern, from [x] to [z]. *)
Inductive iter (M : mstate -> mstate -> Prop)
  : nat -> option nat -> mstate -> mstate -> Prop :=
| iter_full min x : iter M min (Some 0) x x
| iter_stop max x : iter M 0 max x x
| iter_step min max x y z :
    max <> Some 0 ->
    M x y ->
    (min = 0 -> List.length (rest y) <> List.length (rest x)) ->
    iter M (Nat.pred min) (dec max) y z ->
    iter M min max x z.

Definition advance (x : mstate) (c : char) (t : text) : mstate :=
  {| prev := Some c; rest := t; caps := caps x |}.

Definition char_step (test : N -> bool) (x y : mstate) : Prop :=
  exists c t, rest x = c :: t /\ test (code c) = true /\ y = advance x c t.

Definition at_line_start (multiline : bool) (x : mstate) : Prop :=
  match prev x with
  | None => True
  | Some c => multiline && is_line_terminator (code c) = true
  end.

Definition at_line_end (multiline : bool) (x : mstate) : Prop :=
  match rest x with
  | [] => True
  | c :: _ => multiline && is_line_terminator (code c) = true
  end.

Fixpoint matches (multiline : bool) (r : regex) : mstate -> mstate -> Prop :=
  match r with
  | Chr c => char_step (N.eqb c)
  | Dot => char_step (fun c => negb (is_line_terminator c))
  | OneOf items => char_step (fun c => existsb (fun i => item_matches i c) items)
  | NoneOf items =>
      char_step (fun c => negb (existsb (fun i => item_matches i c) items))
  | Seq r1 r2 =>
      fun x z => exists y, matches multiline r1 x y /\ matches multiline r2 y z
  | Alt r1 r2 => fun x y => matches multiline r1 x y \/ matches multiline r2 x y
  | Repeat r' min max _ => iter (matches multiline r') min max
  | Group i r' =>
      fun x z =>
        exists y, matches multiline r' x y /\ z = set_cap i (consumed x y) y
  | NonCapture r' => matches multiline r'
  | Bol => fun x y => at_line_start multiline x /\ y = x
  | Eol => fun x y => at_line_end multiline x /\ y = x
  end.

(** ** Provenance of the rendered characters *)

Definition state_ok (P : char -> Prop) (x : mstate) : Prop :=
  Forall P (rest x) /\ forall i t, caps x i = Some t -> Forall P t.

(** A replacer that builds its result from its arguments and from
    characters satisfying [P]. *)
Definition replacer_ok (P : char -> Prop) (f : replacer) : Prop :=
  forall m g, Forall P m -> (forall i, Forall P (g i)) -> Forall P (f m g).

(** A character of the output is safe when, if it is "<" or ">", it was
    written by the renderer's own templates, and if it is "&", it was not
    copied from the raw input. *)
Definition safe_char (c : char) : Prop :=
  (code c = ch "<" \/ code c = ch ">" -> origin c = Markup)
  /\ (code c = ch "&" -> origin c <> Raw).

(** A character of the escaped text: never "<" or ">", and "&" only as
    written by the escaping step. *)
Definition escaped_char (c : char) : Prop :=
  code c <> ch "<" /\ code c <> ch ">"
  /\ (code c = ch "&" -> origin c = Escaped).

(** [hay.startsWith(needle)] and [hay.includes(needle)] *)
Fixpoint starts_with (needle hay : jsstring) : bool :=
  match needle, hay with
  | [], _ => true
  | _ :: _, [] => false
  | a :: n, b :: h => (a =? b)%N && starts_with n h
  end.

Fixpoint contains (needle hay : jsstring) : bool :=
  starts_with needle hay
  || match hay with
     | [] => false
     | _ :: t => contains needle t
     end.

(** A match reads the word [w] between two states. *)
Definition reads (x y : mstate) (w : jsstring) : Prop :=
  exists l, rest x = l ++ rest y /\ plain l = w.

Definition attribute (name value : string) : jsstring :=
  u name ++ u "=" ++ [dq] ++ u value ++ [dq].

(** A matcher is local when it calls its continuation only at positions
    that are not before its own. *)
Definition local (m : matcher) : Prop :=
  forall x k k',
    (forall y, List.length (rest y) <= List.length (rest x) -> k y = k' y) ->
    m x k = m x k'.

(** ** Entities of the rendered text *)

Definition amp : N := ch "&".

Definition entity_names : list jsstring :=
  [u "amp;"; u "lt;"; u "gt;"; u "nbsp;"].

(** Every "&" of the string starts one of the four entities. *)
Definition intact (s : jsstring) : Prop :=
  forall pre post,
    s = pre ++ amp :: post ->
    exists name post', In name entity_names /\ post = name ++ post'.

(** The characters of the entity names. *)
Definition name_char (c : N) : bool := existsb (N.eqb c) (u "amplt;gnbs").

(** A character that is neither "&" nor part of an entity name. *)
Definition neutral (c : N) : bool := negb (name_char c) && negb (c =? amp)%N.

Definition whole (t : text) : Prop := intact (plain t).

(** Nothing of an entity is cut off before the head of [s]. *)
Definition next_clean (s : text) : Prop :=
  match s with
  | [] => True
  | c :: _ => name_char (code c) = false
  end.

(** A match may start at [s], after the character [p], without cutting an
    entity in two. *)
Definition clean_cut (p : option char) (s : text) : Prop :=
  next_clean s
  \/ match p with
     | None => True
     | Some d => neutral (code d) = true
     end.

(** Each replacement is whole, and each match starts at a clean cut. *)
Definition replaces_whole (multiline : bool) (r : regex) (f : replacer) : Prop :=
  forall p s y,
    match_here multiline r p s = Some y ->
    whole s ->
    clean_cut p s /\ whole (f (matched s y) (group y)).

(** The text copied since the last match, and the character before the
    current position. *)
Definition pending (acc : text) (p : option char) : Prop :=
  acc = [] \/ exists acc' d, acc = acc' ++ [d] /\ p = Some d.

(** A decision procedure for [intact], for the renderer's literals. *)
Fixpoint intact_b (s : jsstring) : bool :=
  match s with
  | [] => true
  | c :: t =>
      (if (c =? amp)%N then existsb (fun name => starts_with name t) entity_names
       else true)
      && intact_b t
  end.

Fixpoint no_groups (r : regex) : bool :=
  match r with
  | Seq r1 r2 | Alt r1 r2 => no_groups r1 && no_groups r2
  | Repeat r' _ _ _ | NonCapture r' => no_groups r'
  | Group _ _ => false
  | _ => true
  end.

(** A match that stops at a clean place or just after a neutral
    character. *)
Definition ends_clean (x y : mstate) : Prop :=
  exists l,
    rest x = l ++ rest y
    /\ (next_clean (rest y)
        \/ exists l' a, l = l' ++ [a] /\ neutral (code a) = true).

(** ** Vocabulary of the further properties *)

(** [{ role: m.role, parts: [{ text: m.content }] }] for a message that is
    neither [null] nor [undefined]. *)
Definition contents_of (m : value) : value :=
  VObj [(u "role", get m F_role);
        (u "parts", VArr [VObj [(u "text", get m F_content)]])].

(** The [messages] of a request body. *)
Definition messages_of (req_body : value) : value :=
  get (or_else req_body (VObj [])) F_messages.

(** An integer that a Number holds exactly, as does its successor: the
    range in which [port + 1] is the next integer. *)
Definition safe_integer (z : Z) : Prop := (- 2 ^ 53 < z < 2 ^ 53)%Z.

(** The port is taken. *)
Definition in_use (o : listen_outcome) : Prop :=
  exists code, o = Fails code /\ address_in_use code = true.

Definition with_key : environment :=
  {| env_GEMINI_API_KEY := VUndef; env_API_KEY := VStr (u "k");
     env_GEMINI_MODEL := VUndef |}.

Definition hi_message : value :=
  VObj [(u "role", VStr (u "user")); (u "content", VStr (u "hi"))].

Definition request_of (ms : list value) : value := VObj [(u "messages", VArr ms)].

(** A client whose call answers [r] whatever it is asked. *)
Definition canned (r : completion value) : provider :=
  {| style := NewerStyle; generateContent := fun _ _ => r |}.

(** The property [name] of an object. *)
Definition property (name : string) (v : value) : value :=
  match v with
  | VObj props => lookup (u name) props
  | _ => VUndef
  end.

(** The warning of one retry. *)
Definition in_use_warning (port : Z) : jsstring :=
  u "Port " ++ numeral_Z port ++ u " in use, trying "
    ++ numeral_Z (port + 1) ++ u "...".

(** What the callback prints when a port fails: nothing, unless
    [app.listen] runs it on errors too. *)
Definition on_error_lines (env : environment) (callback_on_error : bool)
    (port : Z) : list jsstring :=
  if callback_on_error then listen_callback env port else [].

(** The [n] ports from [port] on. *)
Fixpoint ports_from (port : Z) (n : nat) : list Z :=
  match n with
  | O => []
  | S k => port :: ports_from (port + 1) k
  end.

(** An [app.listen] under which exactly the ports in [taken] are in use. *)
Definition ports_taken (taken : list Z) (port : Z) : listen_outcome :=
  if existsb (Z.eqb port) taken then Fails (VStr (u "EADDRINUSE")) else Listens.

(** A turn of the conversation that is not empty and has no white space at
    either end. *)
Definition tidy (m : message) : Prop :=
  content m <> [] /\ str_trim (content m) = content m.

(** Every request made so far is a prefix of the history. *)
Definition requests_are_prefixes (st : page) : Prop :=
  Forall (fun r => exists l, history st = r ++ l) (requests st).

(** What the bot bubble shows at the end of an exchange. *)
Definition final_text (net : fetch_result) : jsstring :=
  match receive net with
  | Normal (Some aiText) => aiText
  | Normal None => u "Sorry, no response received."
  | Throw _ => u "Failed to get response from server."
  end.

Definition typing2 (s : jsstring) (st : page2) : page2 :=
  set_input2 s (input_disabled2 st) st.

Definition user_turn2 (t : jsstring) : turn :=
  {| turn_role := user; turn_content := VStr t |}.

(** A string written in pieces, with a double quote between each two. *)
Definition between_quotes (pieces : list string) : jsstring :=
  join [dq] (map u pieces).

(** A link whose address holds a double quote, an attribute name and a
    second double quote. *)
Definition quote_attack : jsstring :=
  between_quotes
    ["[x](http://a"; "onmouseover="; "location=name)"]%string.

(** An anchor whose [href] is closed by the quote of the input and that
    carries the attribute [onmouseover] of the input. *)
Definition quote_attack_html : jsstring :=
  between_quotes
    ["<p><a href="; "http://a"; "onmouseover="; "location=name";
     " target="; "_blank"; " rel="; "noopener noreferrer";
     ">x</a></p>"]%string.

(** The body that the error path of the second script reads. *)
Definition error_data (json : completion value) : value :=
  match json with
  | Normal d => d
  | Throw _ => VObj []
  end.

(** The page as [applyTheme(theme)] leaves it. *)
Definition themed (theme : string) : theming :=
  {| data_theme := Some (u theme);
     toggle_text := if str_eqb (u theme) (u "light") then moon else sun;
     toggle_light := str_eqb (u theme) (u "light");
     stored_theme := Some (u theme) |}.

Definition fresh_page (stored : option jsstring) : theming :=
  {| data_theme := None; toggle_text := []; toggle_light := false;
     stored_theme := stored |}.

(** A character that starts or ends no markdown construct wherever it
    stands: not a line terminator and none of the backtick, the star, the
    underscore and the opening bracket. *)
Definition inert (c : N) : bool :=
  negb (is_line_terminator c)
  && negb (c =? ch "`")%N && negb (c =? ch "*")%N
  && negb (c =? ch "_")%N && negb (c =? ch "[")%N.

(** A character that can open a heading or a list item at the start of a
    line. *)
Definition line_opener (c : N) : bool :=
  is_digit c || (c =? ch "#")%N || (c =? ch "-")%N || (c =? ch "+")%N.

(** Text without markdown: inert characters only, not starting with a
    line opener. *)
Definition no_markdown (raw : jsstring) : Prop :=
  forallb inert raw = true
  /\ match raw with
     | [] => True
     | c :: _ => line_opener c = false
     end.

(** A position of the escaped text of such a string: the rest is inert,
    and either this is the start and the head is neither a line opener nor
    "<", or the character before is no line terminator. *)
Definition quiet_at (p : option char) (s : text) : Prop :=
  Forall (fun c => inert (code c) = true) s
  /\ match p with
     | None =>
         match s with
         | [] => True
         | c :: _ => line_opener (code c) = false /\ (code c =? ch "<")%N = false
         end
     | Some c => is_line_terminator (code c) = false
     end.

(** The character before the position reached after reading [t]. *)
Definition last_char (p : option char) (t : text) : option char :=
  fold_left (fun _ c => Some c) t p.

(** * Properties *)

(** ** Relay: response extraction *)

Lemma coalesce_nullish a b : nullish a = true -> coalesce a b = b.
Proof. unfold coalesce. now intros ->. Qed.

Lemma coalesce_value a b : nullish a = false -> coalesce a b = Normal a.
Proof. unfold coalesce. now intros ->. Qed.

Lemma joined_text_string parts v :
  joined_text parts = Normal v -> v = VUndef \/ exists s, v = VStr s.
Proof.
  unfold joined_text.
  destruct (nullish parts).
  - intros H. inversion H. now left.
  - destruct parts; try discriminate.
    destruct (mapM (fun p => member p F_text) elems); simpl; try discriminate.
    intros H. inversion H. right. eauto.
Qed.

Lemma JSON_stringify_string resp :
  resp <> VUndef -> exists s, JSON_stringify resp = VStr s.
Proof.
  intros H. unfold JSON_stringify.
  destruct (SerializeJSONProperty [] resp) as [s|] eqn:E; [eauto|].
  destruct resp; simpl in E; try discriminate.
  - congruence.
  - destruct b; discriminate.
  - destruct (_ || _); discriminate.
  - destruct (map _ elems); discriminate.
  - destruct (flat_map _ props); discriminate.
Qed.

Lemma textual_not_nullish v :
  textual v = true -> nullish v = false -> exists s, v = VStr s.
Proof. destruct v; simpl; try discriminate; eauto. Qed.

(** The first candidate shape wins whenever it holds a value. *)
Lemma extractText_first_wins resp :
  nullish (first_text (opt resp F_response)) = false ->
  extractText resp = Normal (first_text (opt resp F_response)).
Proof.
  intros H. unfold extractText, extractText_body, coalesce.
  rewrite H. now rewrite H.
Qed.

(** The second shape wins when the first holds nothing. *)
Lemma extractText_second_wins resp :
  nullish (first_text (opt resp F_response)) = true ->
  nullish (first_text resp) = false ->
  extractText resp = Normal (first_text resp).
Proof.
  intros H1 H2. unfold extractText, extractText_body, coalesce.
  rewrite H1, H2. now rewrite H2.
Qed.

(** C1, as amended: on the response with two parts under [response] the
    first candidate shape already yields "a", so extraction returns "a";
    the newline join is what comes out when the first part holds no text.
    The other two examples are as stated. *)
Theorem extractText_fallback_order :
  extractText (candidates_of [text_part "hi"]) = Normal (VStr (u "hi"))
  /\ extractText (in_response (candidates_of [text_part "a"; text_part "b"]))
     = Normal (VStr (u "a"))
  /\ extractText
       (in_response (candidates_of [VObj []; text_part "a"; text_part "b"]))
     = Normal (VStr (u "a" ++ [nl] ++ u "b"))
  /\ extractText (VObj []) = Normal (VStr (u "{}")).
Proof. repeat split; reflexivity. Qed.

(** C1, as stated, fails: the two-part response does not give the join. *)
Lemma extractText_two_parts_not_joined :
  extractText (in_response (candidates_of [text_part "a"; text_part "b"]))
  <> Normal (VStr (u "a" ++ [nl] ++ u "b")).
Proof. vm_compute. discriminate. Qed.

(** C5, as amended: extraction never throws; when no candidate shape yields
    a value the result is the JSON rendering of the whole response; and the
    result is a string as soon as the response is not [undefined] and the
    two single-candidate lookups hold strings when they hold anything. *)
Theorem extractText_never_throws resp :
  exists v,
    extractText resp = Normal v
    /\ (yields_nothing resp = true -> v = JSON_stringify resp)
    /\ (resp <> VUndef ->
        textual (first_text (opt resp F_response)) = true ->
        textual (first_text resp) = true ->
        exists s, v = VStr s).
Proof.
  unfold extractText, yields_nothing.
  destruct (extractText_body resp) as [t|e] eqn:E.
  - unfold coalesce. destruct (nullish t) eqn:N.
    + eexists; split; [reflexivity|]. split; [reflexivity|].
      intros H _ _. now apply JSON_stringify_string.
    + eexists; split; [reflexivity|]. split; [discriminate|].
      intros _ T1 T2. revert E. unfold extractText_body, coalesce.
      destruct (nullish (first_text (opt resp F_response))) eqn:N1.
      * destruct (nullish (first_text resp)) eqn:N2.
        -- destruct (joined_text (parts_of (opt resp F_response))) as [t3|] eqn:J3;
             simpl; [|discriminate].
           destruct (nullish t3) eqn:N3.
           ++ intros J4. apply joined_text_string in J4.
              destruct J4 as [->|J4]; [discriminate|exact J4].
           ++ intros [= <-]. apply joined_text_string in J3.
              destruct J3 as [->|J3]; [discriminate|exact J3].
        -- intros [= <-]. now apply textual_not_nullish.
      * intros [= <-]. now apply textual_not_nullish.
  - eexists; split; [reflexivity|]. split; [reflexivity|].
    intros H _ _. now apply JSON_stringify_string.
Qed.

Lemma extractText_never_throws_witness :
  exists s, extractText (candidates_of [text_part "hi"]) = Normal (VStr s).
Proof.
  destruct (extractText_never_throws (candidates_of [text_part "hi"]))
    as (v & Hv & _ & Hs).
  destruct Hs as [s ->]; [discriminate | reflexivity | reflexivity |].
  now exists s.
Defined.

(** C5, as stated, fails: [undefined] comes back for [undefined], and a
    [text] that is not a string comes back as it is. *)
Lemma extractText_not_always_string :
  extractText VUndef = Normal VUndef
  /\ extractText (candidates_of [VObj [(u "text", VBool true)]])
     = Normal (VBool true).
Proof. split; reflexivity. Qed.

Lemma serialize_object_not_empty props :
  JSON_stringify (VObj props) <> VStr [].
Proof.
  unfold JSON_stringify. simpl.
  destruct (flat_map _ props); discriminate.
Qed.

(** C10: with the two single-candidate lookups empty, an empty [parts]
    array in the first join branch that is reached makes extraction return
    the empty string, which is not the JSON rendering of the response. *)
Theorem extractText_empty_parts resp :
  (parts_of (opt resp F_response) = VArr []
   /\ nullish (first_text resp) = true)
  \/ (nullish (parts_of (opt resp F_response)) = true
      /\ parts_of resp = VArr []) ->
  extractText resp = Normal (VStr [])
  /\ JSON_stringify resp <> VStr [].
Proof.
  intros H. split.
  - assert (C1 : first_text (opt resp F_response) = VUndef).
    { unfold first_text.
      destruct H as [[-> _]|[N _]]; [reflexivity|].
      destruct (parts_of (opt resp F_response)); try discriminate; reflexivity. }
    assert (C2 : nullish (first_text resp) = true).
    { destruct H as [[_ N]|[_ P]]; [exact N|].
      unfold first_text. now rewrite P. }
    unfold extractText, extractText_body.
    rewrite C1, (coalesce_nullish VUndef _ eq_refl), (coalesce_nullish _ _ C2).
    destruct H as [[-> _]|[N ->]].
    + reflexivity.
    + unfold joined_text at 1. rewrite N. reflexivity.
  - destruct resp; try apply serialize_object_not_empty;
      destruct H as [[P _]|[_ P]]; discriminate.
Qed.

Lemma extractText_empty_parts_witness :
  extractText (candidates_of []) = Normal (VStr [])
  /\ JSON_stringify (candidates_of []) <> VStr [].
Proof.
  apply extractText_empty_parts. right. split; reflexivity.
Defined.

(** ** Relay: POST /api/chat *)

(** C6: a body whose [messages] is not an array is answered with status 500
    and an [error] field, the handler completing normally; a body with an
    array is answered with status 503 and the missing-credential message
    when neither key variable holds a value. *)
Theorem chat_error_responses env p req_body :
  let messages := get (or_else req_body (VObj [])) F_messages in
  (is_array messages = false ->
   chat env p req_body
   = Normal {| status := 500; body := error_body "messages must be an array" |})
  /\ (is_array messages = true ->
      truthy (API_KEY env) = false ->
      chat env p req_body
      = Normal {| status := 503;
                  body := error_body
                    "Missing GEMINI_API_KEY (or API_KEY) in environment." |}).
Proof.
  cbv zeta. unfold chat, chat_try, getClient. split.
  - destruct (get (or_else req_body (VObj [])) F_messages);
      try discriminate; reflexivity.
  - destruct (get (or_else req_body (VObj [])) F_messages);
      try discriminate.
    intros _ ->. reflexivity.
Qed.

Lemma chat_error_responses_witness :
  chat no_keys echo_provider (VObj [(u "messages", VStr (u "not-an-array"))])
  = Normal {| status := 500; body := error_body "messages must be an array" |}
  /\ chat no_keys echo_provider
       (VObj [(u "messages",
               VArr [VObj [(u "role", VStr (u "user"));
                           (u "content", VStr (u "hi"))]])])
     = Normal {| status := 503;
                 body := error_body
                   "Missing GEMINI_API_KEY (or API_KEY) in environment." |}.
Proof.
  split.
  - apply (chat_error_responses no_keys echo_provider
             (VObj [(u "messages", VStr (u "not-an-array"))])).
    reflexivity.
  - apply (chat_error_responses no_keys echo_provider
             (VObj [(u "messages",
                     VArr [VObj [(u "role", VStr (u "user"));
                                 (u "content", VStr (u "hi"))]])]));
      reflexivity.
Defined.

(** ** Browser: the conversation *)

Lemma trim_start_blank A (code_of : A -> N) (s : list A) :
  forallb (fun c => is_space (code_of c)) s = true ->
  trim_start_by code_of s = [].
Proof.
  induction s as [|c t IH]; simpl; [reflexivity|].
  destruct (is_space (code_of c)); simpl; [exact IH|discriminate].
Qed.

Lemma str_trim_blank (s : jsstring) :
  forallb is_space s = true -> str_trim s = [].
Proof.
  intros H. unfold str_trim, trim_by.
  now rewrite (trim_start_blank N (fun c => c) s H).
Qed.

(** C7: a submission that is empty or holds only white space changes
    nothing: the history, the chat box and the list of requests made are
    what they were. *)
Theorem on_submit_blank net st :
  forallb is_space (input_value st) = true ->
  on_submit net st = st
  /\ history (on_submit net st) = history st
  /\ requests (on_submit net st) = requests st.
Proof.
  intros H. unfold on_submit. rewrite (str_trim_blank _ H). now repeat split.
Qed.

Lemma on_submit_blank_witness :
  on_submit (ok_reply "hello") (typing (u "  " ++ [nl; 9%N]) empty_page)
  = typing (u "  " ++ [nl; 9%N]) empty_page.
Proof.
  apply (on_submit_blank (ok_reply "hello")
           (typing (u "  " ++ [nl; 9%N]) empty_page)).
  reflexivity.
Defined.

(** When [receive] yields a reply. *)
Lemma receive_reply net t :
  receive net = Normal (Some t) <->
  exists status data r,
    net = FetchResponse status (Normal data)
    /\ ok status = true
    /\ truthy data = true
    /\ get data F_result = VStr r
    /\ str_trim r = t
    /\ t <> [].
Proof.
  split.
  - destruct net as [err|status [data|e]]; simpl; try discriminate.
    destruct (ok status) eqn:O; simpl; try discriminate.
    destruct (truthy data) eqn:T; try discriminate.
    destruct (get data F_result) eqn:G; try discriminate.
    destruct (str_trim s) eqn:R; try discriminate.
    intros [= <-]. exists status, data, s. repeat split; auto. discriminate.
  - intros (status & data & r & -> & O & T & G & R & NE). simpl.
    rewrite O, T, G. simpl. rewrite R. destruct t; [now elim NE | reflexivity].
Qed.

Lemma sendMessage_history_receive userText net st :
  history (sendMessage userText net st)
  = history st ++ user_turn userText
      :: match receive net with
         | Normal (Some aiText) => [model_turn aiText]
         | _ => []
         end.
Proof.
  unfold sendMessage.
  destruct (receive net) as [[t|]|e]; simpl; rewrite <- ?app_assoc; reflexivity.
Qed.

Lemma get_string_truthy data f r : get data f = VStr r -> truthy data = true.
Proof. destruct data; simpl; try discriminate; reflexivity. Qed.

(** C3, as amended: [sendMessage] appends the user's turn on every path,
    and after it exactly one more element, the model's turn holding the
    trimmed result, on the success path whose trimmed result is not empty,
    and nothing more on any other path. *)
Theorem sendMessage_history userText net st :
  (forall aiText,
     replied net aiText ->
     history (sendMessage userText net st)
     = history st ++ [user_turn userText; model_turn aiText])
  /\ ((forall aiText, ~ replied net aiText) ->
      history (sendMessage userText net st)
      = history st ++ [user_turn userText]).
Proof.
  split.
  - intros aiText (status & data & r & E & O & G & R & NE).
    rewrite sendMessage_history_receive.
    assert (H : receive net = Normal (Some aiText)).
    { apply receive_reply. exists status, data, r.
      repeat split; auto. eapply get_string_truthy; eauto. }
    now rewrite H.
  - intros H. rewrite sendMessage_history_receive.
    destruct (receive net) as [[t|]|e] eqn:E; try reflexivity.
    exfalso. apply (H t). apply receive_reply in E.
    destruct E as (status & data & r & E & O & _ & G & R & NE).
    exists status, data, r. auto.
Qed.

Lemma sendMessage_history_witness :
  history (sendMessage (u "hi") (ok_reply " hello ") empty_page)
  = [user_turn (u "hi"); model_turn (u "hello")]
  /\ history (sendMessage (u "hi") (ok_reply "  ") empty_page)
     = [user_turn (u "hi")].
Proof.
  split.
  - apply (proj1 (sendMessage_history (u "hi") (ok_reply " hello ") empty_page)).
    exists 200%N, (VObj [(u "result", VStr (u " hello "))]), (u " hello ").
    repeat split; try reflexivity. discriminate.
  - apply (proj2 (sendMessage_history (u "hi") (ok_reply "  ") empty_page)).
    intros t (status & data & r & E & _ & G & R & NE).
    injection E as <- <-. injection G as <-. apply NE. now rewrite <- R.
Defined.

(** C3, as stated, fails: a successful exchange makes the history two
    elements longer, and a failed one leaves it one element longer. *)
Lemma sendMessage_grows_by_two :
  List.length (history (sendMessage (u "hi") (ok_reply "hello") empty_page)) = 2
  /\ List.length
       (history (sendMessage (u "hi") (FetchRejected (Error (u "offline")))
                   empty_page)) = 1.
Proof. split; reflexivity. Qed.

(** What the user sees whenever the [try] block throws: the fixed text, the
    thrown value going to the console only. *)
Lemma sendMessage_failure userText net err st :
  receive net = Throw err ->
  let st' := sendMessage userText net st in
  last (map shown (chatBox st')) (TextContent [])
  = TextContent (u "Failed to get response from server.")
  /\ console st' = console st ++ [err]
  /\ history st' = history st ++ [user_turn userText].
Proof.
  intros H. cbv zeta. split; [|split].
  - unfold sendMessage. rewrite H. simpl. rewrite !rev_app_distr. simpl.
    rewrite !rev_app_distr. simpl. rewrite map_app. simpl.
    now rewrite last_last.
  - unfold sendMessage. rewrite H. reflexivity.
  - rewrite sendMessage_history_receive, H. reflexivity.
Qed.

(** C4: the code at a 503 reply that carries the relay's message.  The
    bubble shows the fixed failure text; the relay's message reaches the
    console only; the history holds the user's turn and no model turn. *)
Theorem sendMessage_hides_relay_error :
  let st := sendMessage (u "hi") missing_key_reply empty_page in
  map shown (chatBox st)
  = [TextContent (u "Failed to get response from server.")]
  /\ console st
     = [Error (u "Missing GEMINI_API_KEY (or API_KEY) in environment.")]
  /\ history st = [user_turn (u "hi")].
Proof. repeat split; reflexivity. Qed.

(** ** The matcher is sound for the shape of a match *)

Section Semantics.
Variable multiline : bool.

Lemma match_char_sound test x k z :
  match_char test x k = Some z ->
  exists y, char_step test x y /\ k y = Some z.
Proof.
  unfold match_char, char_step.
  destruct (rest x) as [|c t] eqn:R; [discriminate|].
  destruct (test (code c)) eqn:T; [|discriminate].
  intros H. eexists. split; [|exact H]. now exists c, t.
Qed.

Lemma repeat_matcher_sound (m : matcher) (M : mstate -> mstate -> Prop) greedy :
  (forall x k z, m x k = Some z -> exists y, M x y /\ k y = Some z) ->
  forall fuel min max x k z,
    repeat_matcher m greedy fuel min max x k = Some z ->
    exists y, iter M min max x y /\ k y = Some z.
Proof.
  intros Hm. induction fuel as [|fuel IH]; intros min max x k z; simpl;
    [discriminate|].
  assert (Step :
    m x (fun y =>
           if Nat.eqb min 0 && Nat.eqb (List.length (rest y)) (List.length (rest x))
           then None
           else repeat_matcher m greedy fuel (Nat.pred min) (dec max) y k)
    = Some z ->
    max <> Some 0 ->
    exists y, iter M min max x y /\ k y = Some z).
  { intros H Hmax. apply Hm in H. destruct H as (y & Hy & H).
    destruct (Nat.eqb min 0 && Nat.eqb (List.length (rest y)) (List.length (rest x)))
      eqn:E; [discriminate|].
    apply IH in H. destruct H as (y' & Hit & Hk).
    exists y'. split; [|exact Hk].
    eapply iter_step; eauto.
    intros ->. simpl in E. now apply Nat.eqb_neq in E. }
  assert (Stop : k x = Some z -> min = 0 ->
                 exists y, iter M min max x y /\ k y = Some z).
  { intros H ->. exists x. split; [constructor|exact H]. }
  destruct max as [[|n]|].
  - intros H. exists x. split; [constructor|exact H].
  - destruct (Nat.eqb min 0) eqn:E; simpl.
    + apply Nat.eqb_eq in E. destruct greedy; unfold or_try.
      * destruct (m x _) eqn:Em.
        -- intros [= <-]. apply Step; [reflexivity|discriminate].
        -- intros H. now apply Stop.
      * destruct (k x) eqn:Ek.
        -- intros [= <-]. apply Stop; [reflexivity|exact E].
        -- intros H. apply Step; [exact H|discriminate].
    + intros H. apply Step; [exact H|discriminate].
  - destruct (Nat.eqb min 0) eqn:E; simpl.
    + apply Nat.eqb_eq in E. destruct greedy; unfold or_try.
      * destruct (m x _) eqn:Em.
        -- intros [= <-]. apply Step; [reflexivity|discriminate].
        -- intros H. now apply Stop.
      * destruct (k x) eqn:Ek.
        -- intros [= <-]. apply Stop; [reflexivity|exact E].
        -- intros H. apply Step; [exact H|discriminate].
    + intros H. apply Step; [exact H|discriminate].
Qed.

(** Every result of the matcher has the shape [matches] describes. *)
Lemma compile_sound r :
  forall x k z,
    compile multiline r x k = Some z ->
    exists y, matches multiline r x y /\ k y = Some z.
Proof.
  induction r as [c| |items|items|r1 IH1 r2 IH2|r1 IH1 r2 IH2
                  |r IH min max greedy|i r IH|r IH| |];
    intros x k z; cbn [compile matches].
  - apply match_char_sound.
  - apply match_char_sound.
  - apply match_char_sound.
  - apply match_char_sound.
  - intros H. apply IH1 in H. destruct H as (y & H1 & H).
    apply IH2 in H. destruct H as (y' & H2 & H). eauto.
  - unfold or_try. destruct (compile multiline r1 x k) eqn:E.
    + intros [= <-]. apply IH1 in E. destruct E as (y & H1 & H). eauto.
    + intros H. apply IH2 in H. destruct H as (y & H2 & H). eauto.
  - apply repeat_matcher_sound. exact IH.
  - intros H. apply IH in H. destruct H as (y & H1 & H). eauto.
  - apply IH.
  - unfold at_line_start. destruct (prev x) as [c|].
    + destruct (multiline && is_line_terminator (code c)) eqn:E;
        [|discriminate]. eauto.
    + eauto.
  - unfold at_line_end. destruct (rest x) as [|c t].
    + eauto.
    + destruct (multiline && is_line_terminator (code c)) eqn:E;
        [|discriminate]. eauto.
Qed.

Lemma match_here_sound r p s y :
  match_here multiline r p s = Some y ->
  matches multiline r {| prev := p; rest := s; caps := fun _ => None |} y.
Proof.
  unfold match_here. intros H. apply compile_sound in H.
  destruct H as (y' & H & [= <-]). exact H.
Qed.

(** A match only moves forward: what is left is a suffix of the input. *)
Lemma iter_suffix (M : mstate -> mstate -> Prop) :
  (forall x y, M x y -> exists l, rest x = l ++ rest y) ->
  forall min max x y, iter M min max x y -> exists l, rest x = l ++ rest y.
Proof.
  intros HM min max x y H.
  induction H as [min x|max x|min max x y z _ Hxy _ _ IH].
  - now exists [].
  - now exists [].
  - apply HM in Hxy. destruct Hxy as [l1 E1]. destruct IH as [l2 E2].
    exists (l1 ++ l2). now rewrite E1, E2, app_assoc.
Qed.

Lemma char_step_suffix test x y :
  char_step test x y -> exists l, rest x = l ++ rest y.
Proof. intros (c & t & R & _ & ->). now exists [c]. Qed.

Lemma matches_suffix r :
  forall x y, matches multiline r x y -> exists l, rest x = l ++ rest y.
Proof.
  induction r as [c| |items|items|r1 IH1 r2 IH2|r1 IH1 r2 IH2
                  |r IH min max greedy|i r IH|r IH| |];
    intros x y; simpl; try apply char_step_suffix.
  - intros (y' & H1 & H2). apply IH1 in H1. apply IH2 in H2.
    destruct H1 as [l1 E1]. destruct H2 as [l2 E2].
    exists (l1 ++ l2). now rewrite E1, E2, app_assoc.
  - intros [H|H]; auto.
  - apply iter_suffix. exact IH.
  - intros (y' & H & ->). apply IH in H. exact H.
  - apply IH.
  - intros [_ ->]. now exists [].
  - intros [_ ->]. now exists [].
Qed.
End Semantics.

Lemma consumed_app x y l : rest x = l ++ rest y -> consumed x y = l.
Proof.
  intros E. unfold consumed. rewrite E, length_app.
  replace (List.length l + List.length (rest y) - List.length (rest y))
    with (List.length l) by lia.
  now rewrite firstn_app, firstn_all, Nat.sub_diag, app_nil_r.
Qed.

(** ** Renderer: what the output is made of

    A property of single characters that holds of the input of a step and
    of the renderer's own literals holds of its output: the steps only copy
    characters of their input and insert literals. *)

Section Preservation.
Variable P : char -> Prop.

Lemma Forall_firstn_of (n : nat) (l : text) :
  Forall P l -> Forall P (firstn n l).
Proof.
  intros H. rewrite <- (firstn_skipn n l) in H.
  apply Forall_app in H. exact (proj1 H).
Qed.

Lemma char_step_ok test x y :
  char_step test x y -> state_ok P x -> state_ok P y.
Proof.
  intros (c & t & R & _ & ->) [Hr Hc]. split; simpl.
  - rewrite R in Hr. now inversion Hr.
  - exact Hc.
Qed.

Lemma iter_ok (M : mstate -> mstate -> Prop) :
  (forall x y, M x y -> state_ok P x -> state_ok P y) ->
  forall min max x y, iter M min max x y -> state_ok P x -> state_ok P y.
Proof.
  intros HM min max x y H.
  induction H as [min x|max x|min max x y z _ Hxy _ _ IH]; auto.
  intros Hx. apply IH. now apply (HM x y).
Qed.

Lemma matches_ok multiline r :
  forall x y, matches multiline r x y -> state_ok P x -> state_ok P y.
Proof.
  induction r as [c| |items|items|r1 IH1 r2 IH2|r1 IH1 r2 IH2
                  |r IH min max greedy|i r IH|r IH| |];
    intros x y; simpl; try apply char_step_ok.
  - intros (y' & H1 & H2) Hx. exact (IH2 _ _ H2 (IH1 _ _ H1 Hx)).
  - intros [H|H]; eauto.
  - apply iter_ok. exact IH.
  - intros (y' & H & ->) Hx. pose proof (IH _ _ H Hx) as [Hr Hc].
    split; simpl; [exact Hr|].
    intros j t. destruct (Nat.eqb j i).
    + intros [= <-]. apply Forall_firstn_of. exact (proj1 Hx).
    + apply Hc.
  - apply IH.
  - now intros [_ ->].
  - now intros [_ ->].
Qed.

Lemma match_here_ok multiline r p s y :
  match_here multiline r p s = Some y ->
  Forall P s ->
  Forall P (matched s y) /\ (forall i, Forall P (group y i)) /\ Forall P (rest y).
Proof.
  intros H Hs. apply match_here_sound in H.
  apply matches_ok in H; [|split; simpl; [exact Hs|discriminate]].
  destruct H as [Hr Hc]. split; [|split].
  - now apply Forall_firstn_of.
  - intros i. unfold group. destruct (caps y i) eqn:E; [eauto|constructor].
  - exact Hr.
Qed.

Lemma replace_from_ok multiline r f :
  replacer_ok P f ->
  forall s skip p, Forall P s -> Forall P (replace_from multiline r f skip p s).
Proof.
  intros Hf. induction s as [|c t IH]; intros skip p Hs.
  - destruct skip; simpl; [|constructor].
    destruct (match_here multiline r p []) as [y|] eqn:E; [|constructor].
    apply match_here_ok in E; [|exact Hs]; destruct E as (Hm & Hg & _).
    apply Forall_app. split; [now apply Hf|].
    constructor.
  - assert (Ht : Forall P t) by now inversion Hs.
    assert (Hc : P c) by now inversion Hs.
    destruct skip; simpl; [|now apply IH].
    destruct (match_here multiline r p (c :: t)) as [y|] eqn:E.
    + apply match_here_ok in E; [|exact Hs]; destruct E as (Hm & Hg & _).
      apply Forall_app. split; [now apply Hf|].
      match goal with
      | |- Forall P (match ?n with _ => _ end) => destruct n
      end.
      * constructor; [exact Hc|now apply IH].
      * now apply IH.
    + constructor; [exact Hc|now apply IH].
Qed.

Lemma replace_all_ok multiline r f s :
  replacer_ok P f -> Forall P s -> Forall P (replace_all multiline r f s).
Proof. intros Hf Hs. now apply replace_from_ok. Qed.

Lemma replace_first_ok multiline r f s :
  replacer_ok P f -> Forall P s -> Forall P (replace_first multiline r f s).
Proof.
  intros Hf. unfold replace_first. generalize (@None char).
  induction s as [|c t IH]; intros p Hs; simpl.
  - destruct (match_here multiline r p []) as [y|] eqn:E; [|constructor].
    apply match_here_ok in E; [|exact Hs]; destruct E as (Hm & Hg & Hr).
    apply Forall_app. split; [now apply Hf|exact Hr].
  - destruct (match_here multiline r p (c :: t)) as [y|] eqn:E.
    + apply match_here_ok in E; [|exact Hs]; destruct E as (Hm & Hg & Hr).
      apply Forall_app. split; [now apply Hf|exact Hr].
    + inversion Hs; subst. constructor; [assumption|now apply IH].
Qed.

Lemma trim_start_ok (s : text) : Forall P s -> Forall P (trim_start_by code s).
Proof.
  induction s as [|c t IH]; simpl; intros H; [constructor|].
  destruct (is_space (code c)); [|exact H].
  apply IH. now inversion H.
Qed.

Lemma trim_ok (s : text) : Forall P s -> Forall P (trim s).
Proof.
  intros H. unfold trim, trim_by.
  apply Forall_rev, trim_start_ok, Forall_rev, trim_start_ok, H.
Qed.

Lemma split_lines_ok (s : text) :
  Forall P s -> Forall (Forall P) (split_lines s).
Proof.
  induction s as [|c t IH]; simpl; intros H.
  - repeat constructor.
  - inversion H as [|? ? Hc Ht]; subst. specialize (IH Ht).
    destruct (code c =? nl)%N.
    + constructor; [constructor|exact IH].
    + destruct (split_lines t) as [|l ls].
      * repeat constructor. exact Hc.
      * inversion IH; subst. constructor; [now constructor|assumption].
Qed.

Lemma concat_ok (ls : list text) : Forall (Forall P) ls -> Forall P (List.concat ls).
Proof.
  induction 1 as [|l ls Hl _ IH]; simpl; [constructor|].
  apply Forall_app. now split.
Qed.

(** The renderer's literals satisfy [P]. *)
Hypothesis markup_ok : forall c, P {| code := c; origin := Markup |}.

Lemma from_Markup_ok (s : jsstring) : Forall P (from Markup s).
Proof.
  unfold from. apply Forall_forall. intros c Hin.
  apply in_map_iff in Hin. destruct Hin as (n & <- & _). apply markup_ok.
Qed.

Lemma wrap1_ok open close : replacer_ok P (wrap1 open close).
Proof.
  intros m g _ Hg. unfold wrap1, markup.
  repeat (apply Forall_app; split); auto using from_Markup_ok.
Qed.

Lemma link_template_ok : replacer_ok P link_template.
Proof.
  intros m g _ Hg. unfold link_template, markup, quot.
  repeat (apply Forall_app; split); auto using from_Markup_ok.
Qed.

Lemma list_block_ok marker open close : replacer_ok P (list_block marker open close).
Proof.
  intros block g Hb _. unfold list_block, markup.
  repeat (apply Forall_app; split); auto using from_Markup_ok.
  apply concat_ok. rewrite map_map. apply Forall_map.
  eapply Forall_impl; [|exact (split_lines_ok _ (trim_ok _ Hb))].
  intros l Hl. cbn beta.
  repeat (apply Forall_app; split); auto using from_Markup_ok.
  apply trim_ok, replace_first_ok; [|exact Hl].
  intros ? ? _ _. constructor.
Qed.

Lemma code_fences_ok s : Forall P s -> Forall P (code_fences s).
Proof.
  apply replace_all_ok. intros m g _ Hg. unfold markup.
  repeat (apply Forall_app; split); auto using from_Markup_ok.
  apply replace_all_ok; [|apply Hg].
  intros ? ? _ _. apply from_Markup_ok.
Qed.

Lemma inline_code_ok s : Forall P s -> Forall P (inline_code s).
Proof. apply replace_all_ok, wrap1_ok. Qed.

Lemma headings_ok s : Forall P s -> Forall P (headings s).
Proof.
  intros H. unfold headings.
  repeat (apply replace_all_ok; [apply wrap1_ok|]). exact H.
Qed.

Lemma emphasis_ok s : Forall P s -> Forall P (emphasis s).
Proof.
  intros H. unfold emphasis.
  repeat (apply replace_all_ok; [apply wrap1_ok|]). exact H.
Qed.

Lemma links_ok s : Forall P s -> Forall P (links s).
Proof. apply replace_all_ok, link_template_ok. Qed.

Lemma unordered_lists_ok s : Forall P s -> Forall P (unordered_lists s).
Proof. apply replace_all_ok, list_block_ok. Qed.

Lemma ordered_lists_ok s : Forall P s -> Forall P (ordered_lists s).
Proof. apply replace_all_ok, list_block_ok. Qed.

Lemma paragraphs_ok s : Forall P s -> Forall P (paragraphs s).
Proof.
  intros H. unfold paragraphs. apply replace_all_ok.
  - intros line g Hl _. destruct (starts_with_lt line); [exact Hl|].
    unfold markup. repeat (apply Forall_app; split); auto using from_Markup_ok.
  - apply replace_all_ok; [|exact H].
    intros ? ? _ _. apply from_Markup_ok.
Qed.

(** The transforms after the escaping step keep [P]. *)
Lemma transforms_ok raw isUser :
  Forall P (sanitize raw) -> Forall P (renderMarkdown raw isUser).
Proof.
  intros H. unfold renderMarkdown, markup.
  repeat (apply Forall_app; split); auto using from_Markup_ok.
  now apply paragraphs_ok, ordered_lists_ok, unordered_lists_ok, links_ok,
    emphasis_ok, headings_ok, inline_code_ok, code_fences_ok.
Qed.
End Preservation.

(** ** Renderer: entities stay whole *)

Lemma intact_nil : intact [].
Proof. intros pre post H. destruct pre; discriminate. Qed.

Lemma intact_app a b : intact a -> intact b -> intact (a ++ b).
Proof.
  intros Ha Hb pre post E. apply app_eq_app in E.
  destruct E as [l [[E1 E2]|[E1 E2]]].
  - destruct l as [|c l].
    + simpl in E2. apply (Hb [] post). now rewrite <- E2.
    + injection E2 as <- ->.
      destruct (Ha pre l) as (name & post' & Hin & ->).
      * exact E1.
      * exists name, (post' ++ b). split; [exact Hin|]. now rewrite app_assoc.
  - exact (Hb l post E2).
Qed.

Lemma intact_suffix a b : intact (a ++ b) -> intact b.
Proof.
  intros H pre post E. apply (H (a ++ pre) post).
  now rewrite E, app_assoc.
Qed.

Lemma name_char_in c name : In name entity_names -> In c name -> name_char c = true.
Proof.
  intros Hn Hc. simpl in Hn.
  destruct Hn as [<-|[<-|[<-|[<-|[]]]]]; simpl in Hc;
    repeat (destruct Hc as [<-|Hc]; [reflexivity|]); destruct Hc.
Qed.

(** A prefix that ends before a character outside the entity names. *)
Lemma intact_before a c b :
  intact (a ++ c :: b) -> name_char c = false -> intact a.
Proof.
  intros H Hc pre post E.
  destruct (H pre (post ++ c :: b)) as (name & post' & Hin & E').
  { now rewrite E, <- app_assoc. }
  apply app_eq_app in E'. destruct E' as [l [[E1 E2]|[E1 E2]]].
  - exists name, l. now split.
  - destruct l as [|d l].
    + exists name, []. split; [exact Hin|]. now rewrite E1, !app_nil_r.
    + injection E2 as <- _.
      assert (In c name) by (rewrite E1; apply in_or_app; right; now left).
      rewrite (name_char_in _ _ Hin H0) in Hc. discriminate.
Qed.

Lemma intact_single c : (c =? amp)%N = false -> intact [c].
Proof.
  intros Hc pre post E. destruct pre as [|d pre].
  - injection E as -> _. now rewrite N.eqb_refl in Hc.
  - destruct pre; discriminate.
Qed.

(** A prefix that ends with a neutral character. *)
Lemma intact_through a c b :
  intact (a ++ c :: b) -> neutral c = true -> intact (a ++ [c]).
Proof.
  intros H Hc. unfold neutral in Hc. apply andb_prop in Hc.
  destruct Hc as [H1 H2]. apply negb_true_iff in H1, H2.
  apply intact_app; [eapply intact_before; eauto|now apply intact_single].
Qed.

Lemma intact_no_amp s : existsb (N.eqb amp) s = false -> intact s.
Proof.
  intros H pre post E. exfalso.
  assert (Hin : In amp s) by (rewrite E; apply in_or_app; right; now left).
  assert (existsb (N.eqb amp) s = true).
  { apply existsb_exists. exists amp. split; [exact Hin|apply N.eqb_refl]. }
  congruence.
Qed.

Lemma whole_nil : whole [].
Proof. apply intact_nil. Qed.

Lemma whole_app a b : whole a -> whole b -> whole (a ++ b).
Proof. unfold whole, plain. rewrite map_app. apply intact_app. Qed.

Lemma whole_suffix a b : whole (a ++ b) -> whole b.
Proof. unfold whole, plain. rewrite map_app. apply intact_suffix. Qed.

Lemma whole_before a c b :
  whole (a ++ c :: b) -> name_char (code c) = false -> whole a.
Proof. unfold whole, plain. rewrite map_app. simpl. apply intact_before. Qed.

Lemma whole_through a c b :
  whole (a ++ c :: b) -> neutral (code c) = true -> whole (a ++ [c]).
Proof.
  unfold whole, plain. rewrite !map_app. simpl. apply intact_through.
Qed.

Lemma whole_markup s : existsb (N.eqb amp) (u s) = false -> whole (markup s).
Proof.
  intros H. apply intact_no_amp. unfold markup, plain, from.
  rewrite map_map. simpl. now rewrite map_id.
Qed.

Lemma whole_prefix a b : whole (a ++ b) -> next_clean b -> whole a.
Proof.
  destruct b as [|c b]; simpl.
  - now rewrite app_nil_r.
  - intros H Hc. now apply (whole_before a c b).
Qed.

Lemma cut_whole acc p s :
  whole (acc ++ s) -> clean_cut p s -> pending acc p -> whole acc.
Proof.
  intros H [Hc|Hc] Hp.
  - now apply (whole_prefix acc s).
  - destruct Hp as [->|(acc' & d & -> & ->)]; [apply whole_nil|].
    destruct s as [|c s]; [now rewrite app_nil_r in H|].
    rewrite <- app_assoc in H. now apply (whole_through acc' d (c :: s)).
Qed.

Lemma pending_snoc acc c : pending (acc ++ [c]) (Some c).
Proof. right. now exists acc, c. Qed.

Lemma matched_consumed multiline r p s y :
  match_here multiline r p s = Some y ->
  s = matched s y ++ rest y.
Proof.
  intros H. apply match_here_sound, matches_suffix in H.
  destruct H as [l E]. simpl in E. unfold matched. rewrite E.
  rewrite length_app, Nat.add_sub, firstn_app, firstn_all, Nat.sub_diag.
  simpl. now rewrite app_nil_r.
Qed.

Section Whole.
Variable multiline : bool.
Variable r : regex.
Variable f : replacer.
Hypothesis Hrf : replaces_whole multiline r f.

Lemma replace_from_whole s :
  forall acc skip p,
    whole (acc ++ s) ->
    (skip = 0 -> pending acc p) ->
    (skip <> 0 -> acc = []) ->
    whole (acc ++ replace_from multiline r f skip p s).
Proof.
  induction s as [|c t IH]; intros acc skip p H Hp Hs.
  - destruct skip as [|n]; simpl.
    + destruct (match_here multiline r p []) as [y|] eqn:E.
      * rewrite app_nil_r in *. destruct (Hrf _ _ _ E whole_nil) as [_ Hf].
        now apply whole_app.
      * exact H.
    + exact H.
  - assert (Ht : whole t).
    { apply (whole_suffix (acc ++ [c])). now rewrite <- app_assoc. }
    assert (Hct : whole (c :: t)) by exact (whole_suffix _ _ H).
    destruct skip as [|n]; cbn [replace_from].
    + destruct (match_here multiline r p (c :: t)) as [y|] eqn:E.
      * destruct (Hrf _ _ _ E Hct) as [Hcut Hf].
        apply whole_app; [exact (cut_whole _ _ _ H Hcut (Hp eq_refl))|].
        apply whole_app; [exact Hf|].
        destruct (List.length (c :: t) - List.length (rest y)) as [|n].
        -- apply (IH [c] 0 (Some c)); [exact Hct| |congruence].
           intros _. apply (pending_snoc [] c).
        -- apply (IH [] n (Some c)); [exact Ht| |reflexivity].
           intros _. now left.
      * replace (acc ++ c :: replace_from multiline r f 0 (Some c) t)
          with ((acc ++ [c]) ++ replace_from multiline r f 0 (Some c) t)
          by now rewrite <- app_assoc.
        apply IH; [now rewrite <- app_assoc| |congruence].
        intros _. apply pending_snoc.
    + rewrite (Hs (Nat.neq_succ_0 n)). simpl.
      apply (IH [] n (Some c)); [exact Ht| |reflexivity].
      intros _. now left.
Qed.

Lemma replace_all_whole s : whole s -> whole (replace_all multiline r f s).
Proof.
  intros H. apply (replace_from_whole s [] 0 None); [exact H| |congruence].
  intros _. now left.
Qed.

Lemma replace_first_from_whole s :
  forall acc p,
    whole (acc ++ s) -> pending acc p ->
    whole (acc ++ replace_first_from multiline r f p s).
Proof.
  induction s as [|c t IH]; intros acc p H Hp; simpl.
  - destruct (match_here multiline r p []) as [y|] eqn:E; [|exact H].
    rewrite app_nil_r in H. destruct (Hrf _ _ _ E whole_nil) as [_ Hf].
    pose proof (matched_consumed _ _ _ _ _ E) as Es.
    apply whole_app; [exact H|]. apply whole_app; [exact Hf|].
    destruct (rest y); [apply whole_nil|].
    destruct (matched [] y); discriminate.
  - assert (Hct : whole (c :: t)) by exact (whole_suffix _ _ H).
    destruct (match_here multiline r p (c :: t)) as [y|] eqn:E.
    + destruct (Hrf _ _ _ E Hct) as [Hcut Hf].
      pose proof (matched_consumed _ _ _ _ _ E) as Es.
      apply whole_app; [exact (cut_whole _ _ _ H Hcut Hp)|].
      apply whole_app; [exact Hf|].
      apply (whole_suffix (matched (c :: t) y)). now rewrite <- Es.
    + replace (acc ++ c :: replace_first_from multiline r f (Some c) t)
        with ((acc ++ [c]) ++ replace_first_from multiline r f (Some c) t)
        by now rewrite <- app_assoc.
      apply IH; [now rewrite <- app_assoc|apply pending_snoc].
Qed.

Lemma replace_first_whole s : whole s -> whole (replace_first multiline r f s).
Proof.
  intros H. apply (replace_first_from_whole s [] None); [exact H|now left].
Qed.
End Whole.

Lemma starts_with_app name s :
  starts_with name s = true -> exists post, s = name ++ post.
Proof.
  revert s. induction name as [|a name IH]; intros s; simpl.
  - intros _. now exists s.
  - destruct s as [|b s]; [discriminate|].
    intros H. apply andb_prop in H. destruct H as [E H].
    apply N.eqb_eq in E. subst b. destruct (IH s H) as [post ->].
    now exists post.
Qed.

Lemma intact_b_sound s : intact_b s = true -> intact s.
Proof.
  induction s as [|c t IH]; intros H pre post E.
  - destruct pre; discriminate.
  - cbn [intact_b] in H. apply andb_prop in H. destruct H as [Hc Ht].
    destruct pre as [|d pre].
    + injection E as -> ->. rewrite N.eqb_refl in Hc.
      apply existsb_exists in Hc. destruct Hc as (name & Hin & Hs).
      apply starts_with_app in Hs. destruct Hs as [post' ->].
      now exists name, post'.
    + injection E as _ ->. now apply (IH Ht pre post).
Qed.

Lemma whole_literal s : intact_b (u s) = true -> whole (markup s).
Proof.
  intros H. unfold whole, markup, plain, from.
  rewrite map_map. simpl. rewrite map_id. now apply intact_b_sound.
Qed.

Lemma matches_whole multiline r x y :
  matches multiline r x y -> whole (rest x) -> whole (rest y).
Proof.
  intros H Hx. apply matches_suffix in H. destruct H as [l E].
  rewrite E in Hx. exact (whole_suffix _ _ Hx).
Qed.

Lemma char_step_whole test x y :
  char_step test x y -> whole (rest x) -> whole (rest y).
Proof.
  intros H Hx. apply char_step_suffix in H. destruct H as [l E].
  rewrite E in Hx. exact (whole_suffix _ _ Hx).
Qed.

(** What a match consumed is whole when it stops at a clean place. *)
Lemma consumed_whole multiline r x y :
  matches multiline r x y ->
  whole (rest x) -> next_clean (rest y) -> whole (consumed x y).
Proof.
  intros H Hx Hy. apply matches_suffix in H. destruct H as [l E].
  rewrite (consumed_app _ _ _ E). rewrite E in Hx.
  exact (whole_prefix _ _ Hx Hy).
Qed.

Lemma char_step_next c x y :
  char_step (N.eqb c) x y -> name_char c = false -> next_clean (rest x).
Proof.
  intros (a & t & R & T & _) Hc. apply N.eqb_eq in T.
  rewrite R. simpl. now rewrite <- T.
Qed.

Lemma char_step_caps test x y : char_step test x y -> caps y = caps x.
Proof. now intros (a & t & _ & _ & ->). Qed.

Lemma line_terminator_neutral c :
  is_line_terminator c = true -> neutral c = true.
Proof.
  unfold is_line_terminator. intros H.
  repeat (apply orb_prop in H; destruct H as [H|H]);
    apply N.eqb_eq in H; subst c; reflexivity.
Qed.

Lemma neutral_name_char c : neutral c = true -> name_char c = false.
Proof.
  unfold neutral. intros H. apply andb_prop in H.
  now apply negb_true_iff, (proj1 H).
Qed.

Lemma at_line_end_clean multiline y : at_line_end multiline y -> next_clean (rest y).
Proof.
  unfold at_line_end, next_clean. destruct (rest y) as [|c t]; [auto|].
  intros H. apply andb_prop in H.
  now apply neutral_name_char, line_terminator_neutral, (proj2 H).
Qed.

Lemma at_line_start_cut multiline p s c :
  at_line_start multiline {| prev := p; rest := s; caps := c |} -> clean_cut p s.
Proof.
  unfold at_line_start. simpl. intros H. right. destruct p as [d|]; [|exact I].
  apply andb_prop in H. now apply line_terminator_neutral, (proj2 H).
Qed.

Lemma first_char_cut c p s k y :
  char_step (N.eqb c) {| prev := p; rest := s; caps := k |} y ->
  name_char c = false -> clean_cut p s.
Proof. intros H Hc. left. exact (char_step_next _ _ _ H Hc). Qed.

Lemma wrap1_whole open close g :
  intact_b (u open) = true -> intact_b (u close) = true ->
  whole (g 1) -> forall m, whole (wrap1 open close m g).
Proof.
  intros Ho Hc Hg m. unfold wrap1.
  repeat apply whole_app; auto using whole_literal.
Qed.

Lemma inline_code_replaces :
  replaces_whole false re_inline_code (wrap1 "<code>" "</code>").
Proof.
  intros p s y H Hs. apply match_here_sound in H.
  unfold re_inline_code in H. cbn [seq matches] in H.
  destruct H as (y1 & Hopen & y2 & (yg & Hg & ->) & Hclose).
  split; [exact (first_char_cut _ _ _ _ _ Hopen eq_refl)|].
  apply wrap1_whole; try reflexivity.
  unfold group. rewrite (char_step_caps _ _ _ Hclose). simpl.
  apply (consumed_whole _ _ _ _ Hg).
  - exact (char_step_whole _ _ _ Hopen Hs).
  - exact (char_step_next _ _ _ Hclose eq_refl).
Qed.

Ltac break_match H :=
  cbn [seq lit map u list_ascii_of_string matches] in H;
  repeat match goal with
         | H' : exists _, _ |- _ => destruct H' as [? H']
         | H' : _ /\ _ |- _ => destruct H' as [? ?]
         end;
  subst.

Lemma set_cap_whole i t z : whole (rest z) -> whole (rest (set_cap i t z)).
Proof. exact (fun H => H). Qed.

(** The input is whole at every state a match goes through. *)
Ltac whole_rest :=
  solve [ simpl;
          eauto 16 using char_step_whole, matches_whole, set_cap_whole ].

(** The match stops before a character that is in no entity name. *)
Ltac stops_clean :=
  match goal with
  | Hc : char_step (N.eqb _) (set_cap _ _ ?z) _ |- next_clean (rest ?z) =>
      exact (char_step_next _ _ _ Hc eq_refl)
  | Hc : char_step (N.eqb _) ?z _ |- next_clean (rest ?z) =>
      exact (char_step_next _ _ _ Hc eq_refl)
  | Hc : at_line_end _ (set_cap _ _ ?z) |- next_clean (rest ?z) =>
      exact (at_line_end_clean _ _ Hc)
  | Hc : at_line_end _ ?z |- next_clean (rest ?z) =>
      exact (at_line_end_clean _ _ Hc)
  end.

Lemma iter_caps (M : mstate -> mstate -> Prop) :
  (forall x y, M x y -> caps y = caps x) ->
  forall min max x y, iter M min max x y -> caps y = caps x.
Proof.
  intros HM min max x y H.
  induction H as [min x|max x|min max x y z _ Hxy _ _ IH]; auto.
  rewrite IH. now apply HM.
Qed.

Lemma matches_caps multiline r :
  no_groups r = true ->
  forall x y, matches multiline r x y -> caps y = caps x.
Proof.
  induction r as [c| |items|items|r1 IH1 r2 IH2|r1 IH1 r2 IH2
                  |r IH min max greedy|i r IH|r IH| |];
    simpl; intros Hr x y; try apply char_step_caps.
  - apply andb_prop in Hr. destruct Hr as [H1 H2].
    intros (y' & Hx & Hy). rewrite (IH2 H2 _ _ Hy). now apply IH1.
  - apply andb_prop in Hr. destruct Hr as [H1 H2]. intros [H|H]; auto.
  - apply iter_caps. now apply IH.
  - discriminate.
  - now apply IH.
  - now intros [_ ->].
  - now intros [_ ->].
Qed.

(** The group [i] of the final state is whole. *)
Ltac group_whole :=
  unfold group;
  repeat (unfold set_cap; simpl;
          match goal with
          | Hc : char_step _ _ ?z |- context [caps ?z] =>
              rewrite (char_step_caps _ _ _ Hc)
          | Hm : matches _ ?r _ ?z |- context [caps ?z] =>
              rewrite (matches_caps _ r eq_refl _ _ Hm)
          end);
  unfold set_cap; simpl;
  match goal with
  | Hg : matches _ _ ?a ?b |- whole (consumed ?a ?b) =>
      apply (consumed_whole _ _ _ _ Hg); [whole_rest|stops_clean]
  end.

Lemma matched_whole multiline r p s y :
  match_here multiline r p s = Some y ->
  whole s -> next_clean (rest y) -> whole (matched s y).
Proof.
  intros H Hs Hy. pose proof (matched_consumed _ _ _ _ _ H) as E.
  rewrite E in Hs. exact (whole_prefix _ _ Hs Hy).
Qed.

Lemma lt_replaces : replaces_whole false re_lt (fun _ _ => markup "&lt;").
Proof.
  intros p s y H Hs. apply match_here_sound in H. unfold re_lt in H.
  split; [exact (first_char_cut _ _ _ _ _ H eq_refl)|].
  now apply whole_literal.
Qed.

Lemma fence_replaces :
  replaces_whole false re_fence
    (fun _ g =>
       markup "<pre><code>"
         ++ replace_all false re_lt (fun _ _ => markup "&lt;") (g 1)
         ++ markup "</code></pre>").
Proof.
  intros p s y H Hs. apply match_here_sound in H. unfold re_fence in H.
  assert (Hs' : whole (rest {| prev := p; rest := s; caps := fun _ => None |}))
    by exact Hs.
  break_match H.
  split; [eapply first_char_cut; [eassumption|reflexivity]|].
  repeat apply whole_app; try (apply whole_literal; reflexivity).
  apply replace_all_whole; [exact lt_replaces|].
  group_whole.
Qed.

Lemma emphasis_replaces (delim : string) (c : ascii) open close :
  In (delim, c)
    [("**"%string, "*"%char); ("*"%string, "*"%char);
     ("__"%string, "_"%char); ("_"%string, "_"%char)] ->
  intact_b (u open) = true -> intact_b (u close) = true ->
  replaces_whole false (re_emphasis delim c) (wrap1 open close).
Proof.
  intros Hin Ho Hc p s y H Hs. apply match_here_sound in H.
  assert (Hs' : whole (rest {| prev := p; rest := s; caps := fun _ => None |}))
    by exact Hs.
  simpl in Hin.
  destruct Hin as [E|[E|[E|[E|[]]]]]; injection E as <- <-;
    unfold re_emphasis in H; break_match H;
    (split; [eapply first_char_cut; [eassumption|reflexivity]|]);
    apply wrap1_whole; auto; group_whole.
Qed.

Lemma link_replaces : replaces_whole false re_link link_template.
Proof.
  intros p s y H Hs. apply match_here_sound in H.
  assert (Hs' : whole (rest {| prev := p; rest := s; caps := fun _ => None |}))
    by exact Hs.
  unfold re_link in H.
  cbn [seq matches] in H.
  destruct H as (y0 & Hopen & y1 & (yg1 & Hg1 & ->) & y2 & Hmid1 & y3 & Hmid2
                 & y4 & (yg2 & Hg2 & ->) & Hclose).
  split; [eapply first_char_cut; [eassumption|reflexivity]|].
  unfold link_template, quot.
  repeat apply whole_app;
    try (apply whole_literal; reflexivity);
    try (apply intact_no_amp; reflexivity).
  - group_whole.
  - group_whole.
Qed.

Lemma heading_replaces hashes open close :
  In hashes ["#"; "##"; "###"]%string ->
  intact_b (u open) = true -> intact_b (u close) = true ->
  replaces_whole true (re_heading hashes) (wrap1 open close).
Proof.
  intros Hin Ho Hc p s y H Hs. apply match_here_sound in H.
  assert (Hs' : whole (rest {| prev := p; rest := s; caps := fun _ => None |}))
    by exact Hs.
  simpl in Hin.
  destruct Hin as [<-|[<-|[<-|[]]]];
    unfold re_heading in H; break_match H;
    (split; [eapply at_line_start_cut; eassumption|]);
    apply wrap1_whole; auto; group_whole.
Qed.

Lemma blank_lines_replaces :
  replaces_whole false re_blank_lines (fun _ _ => markup "</p><p>").
Proof.
  intros p s y H Hs. apply match_here_sound in H.
  unfold re_blank_lines in H. simpl in H.
  split; [|now apply whole_literal].
  inversion H as [| |? ? ? y' ? _ Hstep _ _]; subst.
  exact (first_char_cut _ _ _ _ _ Hstep eq_refl).
Qed.

Lemma line_replaces :
  replaces_whole true re_line
    (fun line _ =>
       if starts_with_lt line then line
       else markup "<span>" ++ line ++ markup "</span>").
Proof.
  intros p s y H Hs. pose proof (match_here_sound _ _ _ _ _ H) as Hm.
  unfold re_line in Hm. break_match Hm.
  split; [eapply at_line_start_cut; eassumption|].
  match goal with
  | H0 : match_here _ _ _ _ = Some ?z |- _ =>
      assert (Hline : whole (matched s z))
        by (apply (matched_whole _ _ _ _ _ H0 Hs); simpl; stops_clean)
  end.
  destruct (starts_with_lt _); [exact Hline|].
  repeat apply whole_app; auto; now apply whole_literal.
Qed.

Lemma ends_clean_extend l0 x x' y :
  rest x = l0 ++ rest x' -> ends_clean x' y -> ends_clean x y.
Proof.
  intros E (l & E' & H). exists (l0 ++ l). split.
  - now rewrite E, E', app_assoc.
  - destruct H as [H|(l' & a & -> & Ha)]; [now left|].
    right. exists (l0 ++ l'), a. now rewrite app_assoc.
Qed.

Lemma seq_ends_clean multiline r1 r2 :
  (forall x y, matches multiline r2 x y -> ends_clean x y) ->
  forall x y, matches multiline (Seq r1 r2) x y -> ends_clean x y.
Proof.
  intros H2 x y (y' & H & H'). apply matches_suffix in H.
  destruct H as [l0 E]. exact (ends_clean_extend _ _ _ _ E (H2 _ _ H')).
Qed.

Lemma line_end_ends_clean x y :
  matches true (NonCapture (Alt (Chr nl) Eol)) x y -> ends_clean x y.
Proof.
  simpl. intros [H|[H ->]].
  - destruct H as (a & t & R & T & ->). apply N.eqb_eq in T.
    exists [a]. split; [exact R|]. right. exists [], a. split; [reflexivity|].
    now rewrite <- T.
  - exists []. split; [reflexivity|]. left. exact (at_line_end_clean _ _ H).
Qed.

Lemma iter_ends_clean (M : mstate -> mstate -> Prop) :
  (forall x y, M x y -> ends_clean x y) ->
  forall min max x y, iter M min max x y -> x = y \/ ends_clean x y.
Proof.
  intros HM min max x y H.
  induction H as [min x|max x|min max x y z _ Hxy _ _ IH]; auto.
  right. apply HM in Hxy. destruct IH as [<-|IH]; [exact Hxy|].
  destruct Hxy as (l & E & _). exact (ends_clean_extend _ _ _ _ E IH).
Qed.

(** The lines of a list: at least one item, each ending a line. *)
Lemma items_end_clean item x y :
  (forall x y, matches true item x y -> ends_clean x y) ->
  matches true (lazy_plus (NonCapture item)) x y -> ends_clean x y.
Proof.
  intros Hitem H. unfold lazy_plus in H. simpl in H.
  inversion H as [| |? ? ? y' ? _ Hstep _ Hrest]; subst.
  apply Hitem in Hstep. apply (iter_ends_clean _ Hitem) in Hrest.
  destruct Hrest as [<-|Hrest]; [exact Hstep|].
  destruct Hstep as (l & E & _). exact (ends_clean_extend _ _ _ _ E Hrest).
Qed.

Lemma ends_clean_matched multiline r p s y :
  match_here multiline r p s = Some y ->
  ends_clean {| prev := p; rest := s; caps := fun _ => None |} y ->
  whole s -> whole (matched s y).
Proof.
  intros H (l & E & Hend) Hs. simpl in E.
  pose proof (matched_consumed _ _ _ _ _ H) as E'.
  assert (matched s y = l).
  { rewrite E in E' at 1. now apply app_inv_tail in E'. }
  rewrite H0. rewrite E in Hs. destruct Hend as [Hend|(l' & a & -> & Ha)].
  - exact (whole_prefix _ _ Hs Hend).
  - rewrite <- app_assoc in Hs. exact (whole_through _ _ _ Hs Ha).
Qed.

Lemma space_name_char c : is_space c = true -> name_char c = false.
Proof.
  intros H. destruct (name_char c) eqn:E; [|reflexivity].
  unfold name_char in E. simpl in E.
  repeat (apply orb_prop in E; destruct E as [E|E];
          [apply N.eqb_eq in E; subst c; discriminate H|]).
  discriminate.
Qed.

Lemma trim_start_split (t : text) :
  exists l, t = l ++ trim_start_by code t
            /\ Forall (fun c => is_space (code c) = true) l.
Proof.
  induction t as [|c t (l & E & Hl)]; simpl.
  - now exists [].
  - destruct (is_space (code c)) eqn:S.
    + exists (c :: l). split; [simpl; now rewrite <- E|now constructor].
    + now exists [].
Qed.

Lemma trim_whole t : whole t -> whole (trim t).
Proof.
  intros H. unfold trim, trim_by.
  destruct (trim_start_split t) as (l1 & E1 & _).
  set (t1 := trim_start_by code t) in *.
  assert (H1 : whole t1) by (rewrite E1 in H; exact (whole_suffix _ _ H)).
  destruct (trim_start_split (rev t1)) as (l2 & E2 & Hl2).
  set (t2 := trim_start_by code (rev t1)) in *.
  assert (E : t1 = rev t2 ++ rev l2).
  { rewrite <- rev_app_distr, <- E2. now rewrite rev_involutive. }
  rewrite E in H1. apply (whole_prefix _ _ H1).
  destruct (rev l2) as [|c l] eqn:R; simpl; [exact I|].
  apply space_name_char.
  assert (In c l2) by (apply in_rev; rewrite R; now left).
  rewrite Forall_forall in Hl2. now apply Hl2.
Qed.

Lemma split_lines_head t l ls :
  split_lines t = l :: ls ->
  (ls = [] /\ t = l)
  \/ exists d t', t = l ++ d :: t' /\ code d = nl /\ split_lines t' = ls.
Proof.
  revert l ls. induction t as [|c t IH]; intros l ls; simpl.
  - intros [= <- <-]. now left.
  - destruct (code c =? nl)%N eqn:E.
    + intros [= <- <-]. right. apply N.eqb_eq in E. now exists c, t.
    + destruct (split_lines t) as [|l0 ls0] eqn:S.
      * intros [= <- <-]. destruct t; [now left|].
        simpl in S. destruct (code c0 =? nl)%N; [discriminate|].
        destruct (split_lines t); discriminate.
      * intros [= <- <-].
        destruct (IH l0 ls0 eq_refl) as [[-> ->]|(d & t' & -> & Hd & Hs)].
        -- now left.
        -- right. now exists d, t'.
Qed.

Lemma split_lines_whole t : whole t -> Forall whole (split_lines t).
Proof.
  remember (List.length t) as n eqn:Hn. revert t Hn.
  induction n as [n IH] using lt_wf_ind. intros t Hn H.
  destruct (split_lines t) as [|l ls] eqn:S; [constructor|].
  destruct (split_lines_head _ _ _ S) as [[-> ->]|(d & t' & -> & Hd & <-)].
  - now repeat constructor.
  - constructor.
    + apply (whole_before _ _ _ H). now rewrite Hd.
    + apply (IH (List.length t')).
      * subst n. rewrite length_app. simpl. lia.
      * reflexivity.
      * apply (whole_suffix (l ++ [d])). now rewrite <- app_assoc.
Qed.

Lemma concat_whole ls : Forall whole ls -> whole (List.concat ls).
Proof.
  induction 1 as [|l ls Hl _ IH]; simpl; [apply whole_nil|].
  now apply whole_app.
Qed.

Lemma marker_replaces r' : replaces_whole false (Seq Bol r') (fun _ _ => []).
Proof.
  intros p s y H Hs. apply match_here_sound in H.
  split; [|apply whole_nil].
  simpl in H. destruct H as (y' & [Hb ->] & _).
  exact (at_line_start_cut _ _ _ _ Hb).
Qed.

Lemma list_block_whole marker open close block g :
  replaces_whole false marker (fun _ _ => []) ->
  intact_b (u open) = true -> intact_b (u close) = true ->
  whole block -> whole (list_block marker open close block g).
Proof.
  intros Hm Ho Hc Hb. unfold list_block.
  repeat apply whole_app; try now apply whole_literal.
  apply concat_whole. rewrite map_map. apply Forall_map.
  eapply Forall_impl; [|exact (split_lines_whole _ (trim_whole _ Hb))].
  intros l Hl. cbn beta.
  repeat apply whole_app; try now apply whole_literal.
  now apply trim_whole, replace_first_whole.
Qed.

Lemma ul_replaces :
  replaces_whole true re_ul (list_block re_ul_marker "<ul>" "</ul>").
Proof.
  intros p s y H Hs. pose proof (match_here_sound _ _ _ _ _ H) as Hm.
  unfold re_ul in Hm. cbn [seq matches] in Hm.
  destruct Hm as (y' & [Hb ->] & Hitems).
  split; [exact (at_line_start_cut _ _ _ _ Hb)|].
  apply list_block_whole; try reflexivity.
  - exact (marker_replaces _).
  - apply (ends_clean_matched _ _ _ _ _ H); [|exact Hs].
    eapply items_end_clean; [|exact Hitems].
    repeat apply seq_ends_clean. exact line_end_ends_clean.
Qed.

Lemma ol_replaces :
  replaces_whole true re_ol (list_block re_ol_marker "<ol>" "</ol>").
Proof.
  intros p s y H Hs. pose proof (match_here_sound _ _ _ _ _ H) as Hm.
  unfold re_ol in Hm. cbn [seq matches] in Hm.
  destruct Hm as (y' & [Hb ->] & Hitems).
  split; [exact (at_line_start_cut _ _ _ _ Hb)|].
  apply list_block_whole; try reflexivity.
  - exact (marker_replaces _).
  - apply (ends_clean_matched _ _ _ _ _ H); [|exact Hs].
    eapply items_end_clean; [|exact Hitems].
    repeat apply seq_ends_clean. exact line_end_ends_clean.
Qed.

Lemma escape_char_whole c : whole (escape_char c).
Proof.
  unfold escape_char.
  destruct (c =? ch "&")%N eqn:E1; [now apply intact_b_sound|].
  destruct (c =? ch "<")%N; [now apply intact_b_sound|].
  destruct (c =? ch ">")%N; [now apply intact_b_sound|].
  destruct (c =? 160)%N; [now apply intact_b_sound|].
  now apply intact_single.
Qed.

Lemma sanitize_whole raw : whole (sanitize raw).
Proof.
  unfold sanitize. induction raw as [|c t IH]; simpl; [apply whole_nil|].
  apply whole_app; [apply escape_char_whole|exact IH].
Qed.

Lemma code_fences_whole s : whole s -> whole (code_fences s).
Proof. apply replace_all_whole, fence_replaces. Qed.

Lemma inline_code_whole s : whole s -> whole (inline_code s).
Proof. apply replace_all_whole, inline_code_replaces. Qed.

Lemma headings_whole s : whole s -> whole (headings s).
Proof.
  intros H. unfold headings.
  repeat (apply replace_all_whole;
          [apply heading_replaces; simpl; auto|]).
  exact H.
Qed.

Lemma emphasis_whole s : whole s -> whole (emphasis s).
Proof.
  intros H. unfold emphasis.
  repeat (apply replace_all_whole;
          [apply emphasis_replaces; simpl; auto 6|]).
  exact H.
Qed.

Lemma links_whole s : whole s -> whole (links s).
Proof. apply replace_all_whole, link_replaces. Qed.

Lemma unordered_lists_whole s : whole s -> whole (unordered_lists s).
Proof. apply replace_all_whole, ul_replaces. Qed.

Lemma ordered_lists_whole s : whole s -> whole (ordered_lists s).
Proof. apply replace_all_whole, ol_replaces. Qed.

Lemma paragraphs_whole s : whole s -> whole (paragraphs s).
Proof.
  intros H. unfold paragraphs.
  apply replace_all_whole; [exact line_replaces|].
  apply replace_all_whole; [exact blank_lines_replaces|exact H].
Qed.

(** Every "&" of the rendered text starts an entity. *)
Lemma renderMarkdown_whole raw isUser : whole (renderMarkdown raw isUser).
Proof.
  unfold renderMarkdown.
  repeat apply whole_app; try now apply whole_literal.
  apply paragraphs_whole, ordered_lists_whole, unordered_lists_whole,
    links_whole, emphasis_whole, headings_whole, inline_code_whole,
    code_fences_whole, sanitize_whole.
Qed.

(** ** Renderer: two runs *)

Example renderMarkdown_sample :
  renderMarkdown_html (u "# T" ++ [nl; nl] ++ u "a **b** `c<d` & _e_")
  = u "<p><h1>T</h1></p><p>a <strong>b</strong> <code>c&lt;d</code> &amp; <em>e</em></p>".
Proof. reflexivity. Qed.

Example renderMarkdown_fence :
  renderMarkdown_html (u "```x<y```") = u "<p><pre><code>x&lt;y</code></pre></p>".
Proof. reflexivity. Qed.

(** ** Renderer: injection safety *)

Lemma escape_char_escaped c : Forall escaped_char (escape_char c).
Proof.
  unfold escape_char.
  destruct (c =? ch "&")%N eqn:E1;
    [|destruct (c =? ch "<")%N eqn:E2;
      [|destruct (c =? ch ">")%N eqn:E3;
        [|destruct (c =? 160)%N eqn:E4]]];
    try (repeat constructor; simpl; try discriminate; intros H; discriminate H).
  apply N.eqb_neq in E1, E2, E3.
  repeat constructor; simpl; auto. intros H. now elim E1.
Qed.

Lemma sanitize_escaped raw : Forall escaped_char (sanitize raw).
Proof.
  unfold sanitize. induction raw as [|c t IH]; simpl; [constructor|].
  apply Forall_app. split; [apply escape_char_escaped|exact IH].
Qed.

Lemma escaped_safe c : escaped_char c -> safe_char c.
Proof.
  intros (H1 & H2 & H3). split.
  - intros [H|H]; contradiction.
  - intros H. rewrite (H3 H). discriminate.
Qed.

(** The escaping step runs first and leaves no "<" or ">" and no "&" of
    its input in the text the transforms see; in the rendered output every
    "<" and ">" was written by a step of the renderer and no "&" is a
    character of the raw input; and every "&" of the output starts one of
    the entities the escaping step and the code-block step write.  This
    says nothing about the double quote. *)
Lemma renderMarkdown_no_raw_brackets raw isUser :
  Forall escaped_char (sanitize raw)
  /\ Forall safe_char (renderMarkdown raw isUser)
  /\ intact (plain (renderMarkdown raw isUser)).
Proof.
  split; [apply sanitize_escaped|]. split; [|apply renderMarkdown_whole].
  apply transforms_ok.
  - intros c. split; [reflexivity|discriminate].
  - eapply Forall_impl; [|apply sanitize_escaped].
    intros c. apply escaped_safe.
Qed.

Lemma sanitize_app a b : sanitize (a ++ b) = sanitize a ++ sanitize b.
Proof. unfold sanitize. apply flat_map_app. Qed.

(** C2: the escaping step does not escape the double quote: it copies
    every one of its input, and the link step writes the address between
    the quotes of [href].  A link whose address holds a double quote
    therefore closes the attribute and adds attributes of its own: the
    input [x](http://a"onmouseover="location=name) is rendered as an anchor
    with [href="http://a"] and [onmouseover="location=name"]. *)
Theorem renderMarkdown_quote_injection :
  (forall a b,
     plain (sanitize (a ++ dq :: b))
     = plain (sanitize a) ++ dq :: plain (sanitize b))
  /\ forall isUser, plain (renderMarkdown quote_attack isUser) = quote_attack_html.
Proof.
  split.
  - intros a b. rewrite sanitize_app. unfold plain. rewrite map_app.
    reflexivity.
  - intros isUser. vm_compute. reflexivity.
Qed.

(** ** Renderer: links and lists *)

Lemma reads_chr c x y : char_step (N.eqb c) x y -> reads x y [c] /\ caps y = caps x.
Proof.
  intros (a & t & R & T & ->). apply N.eqb_eq in T. split; [|reflexivity].
  exists [a]. simpl. now rewrite R, T.
Qed.

Lemma reads_trans x y z w1 w2 :
  reads x y w1 -> reads y z w2 -> reads x z (w1 ++ w2).
Proof.
  intros (l1 & E1 & <-) (l2 & E2 & <-). exists (l1 ++ l2).
  unfold plain. now rewrite E1, E2, app_assoc, map_app.
Qed.
Arguments reads_trans {x y z w1 w2} _ _.

Lemma reads_some multiline r x y : matches multiline r x y -> exists w, reads x y w.
Proof.
  intros H. apply matches_suffix in H. destruct H as [l E].
  now exists (plain l), l.
Qed.

Lemma reads_optional multiline c x y :
  matches multiline (opt_ (Chr c)) x y -> reads x y [] \/ reads x y [c].
Proof.
  unfold opt_. simpl. intros H.
  inversion H as [| |? ? ? y' ? Hmax Hstep _ Hrest]; subst.
  - left. now exists [].
  - right. apply reads_chr in Hstep. destruct Hstep as [Hstep _].
    simpl in Hrest.
    inversion Hrest as [| |? ? ? ? ? Hmax' _ _ _]; subst;
      [exact Hstep|exact Hstep|now elim Hmax'].
Qed.

Lemma reads_consumed x y w : reads x y w -> plain (consumed x y) = w.
Proof. intros (l & E & <-). apply consumed_app in E. now rewrite E. Qed.

(** Whenever the link pattern matches, its second group, the address put
    into [href], starts with one of the two accepted schemes. *)
Lemma link_scheme p s y :
  match_here false re_link p s = Some y ->
  exists tail,
    plain (group y 2) = u "http://" ++ tail
    \/ plain (group y 2) = u "https://" ++ tail.
Proof.
  intros H. apply match_here_sound in H.
  unfold re_link, re_address in H.
  cbn [seq lit map u list_ascii_of_string matches] in H.
  destruct H as (y0 & _ & y1 & _ & y2 & _ & y3 & _ & y4 & Hg & Hclose).
  destruct Hg as (yg & Hbody & ->).
  destruct Hbody as (y5 & Hhttp & y6 & Hs & y7 & Hsep & Htail).
  destruct Hhttp as (h1 & Hh & h2 & Ht1 & h3 & Ht2 & Hp).
  destruct Hsep as (s1 & Hc & s2 & Hs1 & Hs2).
  apply reads_chr in Hh, Ht1, Ht2, Hp, Hc, Hs1, Hs2, Hclose.
  destruct Hh as [Hh _], Ht1 as [Ht1 _], Ht2 as [Ht2 _], Hp as [Hp _],
    Hc as [Hc _], Hs1 as [Hs1 _], Hs2 as [Hs2 _], Hclose as [_ Hcaps].
  apply reads_some in Htail. destruct Htail as [tail Htail].
  exists tail. unfold group. rewrite Hcaps. simpl.
  pose proof (reads_trans Hh (reads_trans Ht1 (reads_trans Ht2 Hp))) as Hhttp.
  pose proof (reads_trans Hc (reads_trans Hs1 (reads_trans Hs2 Htail))) as Hrest.
  apply reads_optional in Hs. destruct Hs as [Hs|Hs].
  - left. apply reads_consumed.
    exact (reads_trans Hhttp (reads_trans Hs Hrest)).
  - right. apply reads_consumed.
    exact (reads_trans Hhttp (reads_trans Hs Hrest)).
Qed.

(** C8: the link with an https address becomes an anchor with that [href],
    [target="_blank"] and [rel="noopener noreferrer"]; the link with a
    javascript address stays as the text it was, with no anchor; and
    whatever the input, an address that the link pattern accepts starts
    with http:// or https://. *)
Theorem link_transform :
  (let html := renderMarkdown_html (u "[a](https://x.com)") in
   html = u "<p><a " ++ attribute "href" "https://x.com" ++ u " "
            ++ attribute "target" "_blank" ++ u " "
            ++ attribute "rel" "noopener noreferrer" ++ u ">a</a></p>"
   /\ contains (attribute "href" "https://x.com") html = true
   /\ contains (attribute "target" "_blank") html = true
   /\ contains (attribute "rel" "noopener noreferrer") html = true)
  /\ (let raw := u "[a](javascript:alert(1))" in
      links (sanitize raw) = sanitize raw
      /\ renderMarkdown_html raw = u "<p><span>" ++ raw ++ u "</span></p>"
      /\ contains (u "<a") (renderMarkdown_html raw) = false)
  /\ (forall p s y,
        match_here false re_link p s = Some y ->
        exists tail,
          plain (group y 2) = u "http://" ++ tail
          \/ plain (group y 2) = u "https://" ++ tail).
Proof.
  split; [|split].
  - vm_compute. repeat split; reflexivity.
  - vm_compute. repeat split; reflexivity.
  - exact link_scheme.
Qed.

Lemma link_transform_witness :
  exists y tail,
    match_here false re_link None (sanitize (u "[a](https://x.com)")) = Some y
    /\ (plain (group y 2) = u "http://" ++ tail
        \/ plain (group y 2) = u "https://" ++ tail).
Proof.
  destruct (match_here false re_link None (sanitize (u "[a](https://x.com)")))
    as [y|] eqn:E; [|vm_compute in E; discriminate].
  destruct (proj2 (proj2 link_transform) _ _ _ E) as [tail H].
  now exists y, tail.
Defined.

(** C9: the code at two consecutive list lines.  Each line becomes a list
    element of its own, where the claim has one list holding both items. *)
Theorem list_lines_not_grouped :
  renderMarkdown_html (u "- a" ++ [nl] ++ u "- b")
  = u "<p><ul><li>a</li></ul><ul><li>b</li></ul></p>"
  /\ renderMarkdown_html (u "1. a" ++ [nl] ++ u "2. b")
     = u "<p><ol><li>a</li></ol><ol><li>b</li></ol></p>".
Proof. split; reflexivity. Qed.

(** ** The fuel of [repeat_matcher] is never used up *)

Lemma match_char_local test : local (match_char test).
Proof.
  intros x k k' H. unfold match_char.
  destruct (rest x) as [|c t] eqn:R; [reflexivity|].
  destruct (test (code c)); [|reflexivity].
  apply H. simpl. lia.
Qed.

Lemma repeat_matcher_local m greedy :
  local m -> forall fuel min max, local (repeat_matcher m greedy fuel min max).
Proof.
  intros Hm. induction fuel as [|fuel IH]; intros min max x k k' H; simpl;
    [reflexivity|].
  assert (Step :
    m x (fun y =>
           if Nat.eqb min 0 && Nat.eqb (List.length (rest y)) (List.length (rest x))
           then None
           else repeat_matcher m greedy fuel (Nat.pred min) (dec max) y k)
    = m x (fun y =>
           if Nat.eqb min 0 && Nat.eqb (List.length (rest y)) (List.length (rest x))
           then None
           else repeat_matcher m greedy fuel (Nat.pred min) (dec max) y k')).
  { apply Hm. intros y Hy.
    destruct (Nat.eqb min 0 && _); [reflexivity|].
    apply IH. intros z Hz. apply H. lia. }
  rewrite Step, (H x (le_n _)). reflexivity.
Qed.

Lemma compile_local multiline r : local (compile multiline r).
Proof.
  induction r as [c| |items|items|r1 IH1 r2 IH2|r1 IH1 r2 IH2
                  |r IH min max greedy|i r IH|r IH| |];
    cbn [compile]; try apply match_char_local.
  - intros x k k' H. apply IH1. intros y Hy. apply IH2.
    intros z Hz. apply H. lia.
  - intros x k k' H. now rewrite (IH1 x k k' H), (IH2 x k k' H).
  - intros x k k' H. now apply repeat_matcher_local.
  - intros x k k' H. apply IH. intros y Hy.
    apply (H (set_cap i (consumed x y) y)). exact Hy.
  - exact IH.
  - intros x k k' H. destruct (prev x) as [c|]; [|apply H, le_n].
    destruct (multiline && _); [apply H, le_n|reflexivity].
  - intros x k k' H. destruct (rest x) as [|c t] eqn:R.
    + apply H. rewrite R. apply le_n.
    + destruct (multiline && _); [|reflexivity]. apply H. rewrite R. apply le_n.
Qed.

(** With fuel above [min] plus the remaining length, more fuel changes
    nothing. *)
Lemma repeat_matcher_fuel m greedy :
  local m ->
  forall fuel1 fuel2 min max x k,
    min + List.length (rest x) < fuel1 ->
    min + List.length (rest x) < fuel2 ->
    repeat_matcher m greedy fuel1 min max x k
    = repeat_matcher m greedy fuel2 min max x k.
Proof.
  intros Hm. induction fuel1 as [|fuel1 IH]; intros fuel2 min max x k H1 H2;
    [lia|].
  destruct fuel2 as [|fuel2]; [lia|]. simpl.
  assert (Step :
    m x (fun y =>
           if Nat.eqb min 0 && Nat.eqb (List.length (rest y)) (List.length (rest x))
           then None
           else repeat_matcher m greedy fuel1 (Nat.pred min) (dec max) y k)
    = m x (fun y =>
           if Nat.eqb min 0 && Nat.eqb (List.length (rest y)) (List.length (rest x))
           then None
           else repeat_matcher m greedy fuel2 (Nat.pred min) (dec max) y k)).
  { apply Hm. intros y Hy.
    destruct (Nat.eqb min 0) eqn:E0; simpl.
    - apply Nat.eqb_eq in E0.
      destruct (Nat.eqb (List.length (rest y)) (List.length (rest x))) eqn:E;
        [reflexivity|].
      apply Nat.eqb_neq in E. apply IH; lia.
    - apply Nat.eqb_neq in E0. apply IH; lia. }
  now rewrite Step.
Qed.

(** The fuel that [compile] gives a repetition is enough. *)
Lemma compile_repeat_fuel multiline r min max greedy extra x k :
  repeat_matcher (compile multiline r) greedy
    (S (min + List.length (rest x)) + extra) min max x k
  = compile multiline (Repeat r min max greedy) x k.
Proof.
  cbn [compile]. apply repeat_matcher_fuel; [apply compile_local|lia|lia].
Qed.

(** * Further properties *)

(** ** Relay: the chat endpoint beyond its error answers *)

Lemma mapM_to_contents ms :
  Forall (fun m => nullish m = false) ms ->
  mapM to_contents ms = Normal (map contents_of ms).
Proof.
  induction 1 as [|m ms Hm _ IH]; simpl; [reflexivity|].
  unfold to_contents at 1, member. rewrite Hm. simpl. now rewrite IH.
Qed.

Lemma extractText_normal resp : exists v, extractText resp = Normal v.
Proof.
  unfold extractText. destruct (extractText_body resp) as [t|e]; [|eauto].
  unfold coalesce. destruct (nullish t); eauto.
Qed.

(** X1: with a key configured, a supported client and messages none of
    which is null or undefined, the provider is asked once, for the
    configured model, with one content per message in the same order; what
    it returns goes through [extractText] into a 200 answer. *)
Theorem chat_success env p req_body ms resp :
  messages_of req_body = VArr ms ->
  truthy (API_KEY env) = true ->
  style p <> UnsupportedStyle ->
  Forall (fun m => nullish m = false) ms ->
  generateContent p (GEMINI_MODEL env) (map contents_of ms) = Normal resp ->
  exists result,
    extractText resp = Normal result
    /\ chat env p req_body
       = Normal {| status := 200; body := VObj [(u "result", result)] |}.
Proof.
  intros Hm Hk Hs Hms Hg. destruct (extractText_normal resp) as [result Hr].
  exists result. split; [exact Hr|].
  unfold chat, chat_try, getClient. fold (messages_of req_body).
  rewrite Hm, Hk. simpl. rewrite (mapM_to_contents ms Hms). simpl.
  destruct (style p); try (now elim Hs); rewrite Hg; simpl; now rewrite Hr.
Qed.

Lemma chat_success_witness :
  exists result,
    extractText (candidates_of [text_part "hello"]) = Normal result
    /\ chat with_key (canned (Normal (candidates_of [text_part "hello"])))
         (request_of [hi_message])
       = Normal {| status := 200; body := VObj [(u "result", result)] |}.
Proof.
  apply (chat_success with_key
           (canned (Normal (candidates_of [text_part "hello"])))
           (request_of [hi_message]) [hi_message]);
    try reflexivity.
  - discriminate.
  - repeat constructor.
Defined.

Lemma mapM_to_contents_null ms :
  Exists (fun m => nullish m = true) ms ->
  exists msg, mapM to_contents ms = Throw (Error msg).
Proof.
  induction 1 as [m ms Hn|m ms _ IH].
  - simpl. unfold to_contents at 1, member. rewrite Hn. simpl. eauto.
  - simpl. unfold to_contents at 1, member.
    destruct (nullish m); simpl; [eauto|].
    destruct IH as [msg ->]. simpl. eauto.
Qed.

(** X2: a [null] or [undefined] element among the messages is answered
    with status 500 and a string in [error], and the answer does not
    depend on the provider: it is not reached. *)
Theorem chat_null_message env p req_body ms :
  messages_of req_body = VArr ms ->
  truthy (API_KEY env) = true ->
  Exists (fun m => nullish m = true) ms ->
  (exists msg,
     chat env p req_body
     = Normal {| status := 500; body := VObj [(u "error", VStr msg)] |})
  /\ forall p', chat env p' req_body = chat env p req_body.
Proof.
  intros Hm Hk Hex.
  pose proof (mapM_to_contents_null ms Hex) as Hthrow.
  destruct Hthrow as [msg Ht].
  assert (Hc : forall q,
             chat env q req_body
             = Normal {| status := 500; body := VObj [(u "error", VStr msg)] |}).
  { intros q. unfold chat, chat_try, getClient. fold (messages_of req_body).
    rewrite Hm, Hk. simpl. rewrite Ht. reflexivity. }
  split; [exists msg; apply Hc|]. intros p'. now rewrite !Hc.
Qed.

Lemma chat_null_message_witness :
  (exists msg,
     chat with_key (canned (Normal VNull)) (request_of [hi_message; VNull])
     = Normal {| status := 500; body := VObj [(u "error", VStr msg)] |})
  /\ forall p',
       chat with_key p' (request_of [hi_message; VNull])
       = chat with_key (canned (Normal VNull)) (request_of [hi_message; VNull]).
Proof.
  apply (chat_null_message with_key (canned (Normal VNull))
           (request_of [hi_message; VNull]) [hi_message; VNull]);
    try reflexivity.
  apply Exists_cons_tl, Exists_cons_hd. reflexivity.
Defined.

(** X3: when the provider call rejects with a value that is neither null
    nor undefined, the answer is status 500 carrying that value's
    [message]; a client offering neither call style is answered the same
    way with its own message. *)
Theorem chat_provider_failure env p req_body ms :
  messages_of req_body = VArr ms ->
  truthy (API_KEY env) = true ->
  Forall (fun m => nullish m = false) ms ->
  (forall err,
     style p <> UnsupportedStyle ->
     generateContent p (GEMINI_MODEL env) (map contents_of ms) = Throw err ->
     nullish err = false ->
     chat env p req_body
     = Normal {| status := 500; body := VObj [(u "error", get err F_message)] |})
  /\ (style p = UnsupportedStyle ->
      chat env p req_body
      = Normal {| status := 500;
                  body := error_body "Unsupported Gemini client instance" |}).
Proof.
  intros Hm Hk Hms. split.
  - intros err Hs Hg Hn.
    unfold chat, chat_try, getClient. fold (messages_of req_body).
    rewrite Hm, Hk. simpl. rewrite (mapM_to_contents ms Hms). simpl.
    destruct (style p); try (now elim Hs); rewrite Hg; simpl;
      unfold member; now rewrite Hn.
  - intros Hs.
    unfold chat, chat_try, getClient. fold (messages_of req_body).
    rewrite Hm, Hk. simpl. rewrite (mapM_to_contents ms Hms). simpl.
    rewrite Hs. reflexivity.
Qed.

Lemma chat_provider_failure_witness :
  chat with_key (canned (Throw (Error (u "quota exceeded"))))
    (request_of [hi_message])
  = Normal {| status := 500; body := error_body "quota exceeded" |}.
Proof.
  assert (H : Forall (fun m => nullish m = false) [hi_message])
    by (repeat constructor).
  apply (proj1 (chat_provider_failure with_key
                  (canned (Throw (Error (u "quota exceeded"))))
                  (request_of [hi_message]) [hi_message] eq_refl eq_refl H)
           (Error (u "quota exceeded")));
    [discriminate|reflexivity|reflexivity].
Defined.

Lemma mapM_to_contents_throws ms e :
  mapM to_contents ms = Throw e -> nullish e = false.
Proof.
  induction ms as [|m ms IH]; simpl; [discriminate|].
  unfold to_contents at 1, member. destruct (nullish m); simpl.
  - intros [= <-]. reflexivity.
  - destruct (mapM to_contents ms); simpl; [discriminate|].
    intros [= <-]. now apply IH.
Qed.

(** X4: as long as the provider never rejects with [null] or [undefined],
    the handler answers every request, and only with status 200 and a
    [result], status 500 and an [error], or status 503 and an [error]. *)
Theorem chat_always_answers env p req_body :
  (forall m c e, generateContent p m c = Throw e -> nullish e = false) ->
  exists r v,
    chat env p req_body = Normal r
    /\ ((status r = 200%N /\ body r = VObj [(u "result", v)])
        \/ (status r = 500%N /\ body r = VObj [(u "error", v)])
        \/ (status r = 503%N /\ body r = VObj [(u "error", v)])).
Proof.
  intros Hp.
  assert (Hcatch : forall err, nullish err = false ->
            exists r v,
              (msg <- member err F_message ;;
               Normal {| status := 500; body := VObj [(u "error", msg)] |})
              = Normal r
              /\ ((status r = 200%N /\ body r = VObj [(u "result", v)])
                  \/ (status r = 500%N /\ body r = VObj [(u "error", v)])
                  \/ (status r = 503%N /\ body r = VObj [(u "error", v)]))).
  { intros err Hn. unfold member. rewrite Hn. simpl.
    eexists _, _. split; [reflexivity|]. right. left. now split. }
  unfold chat, chat_try, getClient.
  destruct (get (or_else req_body (VObj [])) F_messages) as [| | | | |ms|];
    try (apply Hcatch; reflexivity).
  destruct (truthy (API_KEY env)); simpl.
  - destruct (mapM to_contents ms) as [cs|e] eqn:Ec; simpl.
    + assert (Hgen : forall g,
                g = generateContent p (GEMINI_MODEL env) cs ->
                exists r v,
                  match
                    (resp <- g ;;
                     result <- extractText resp ;;
                     Normal {| status := 200;
                               body := VObj [(u "result", result)] |})
                  with
                  | Normal r => Normal r
                  | Throw err =>
                      msg <- member err F_message ;;
                      Normal {| status := 500;
                                body := VObj [(u "error", msg)] |}
                  end = Normal r
                  /\ ((status r = 200%N /\ body r = VObj [(u "result", v)])
                      \/ (status r = 500%N /\ body r = VObj [(u "error", v)])
                      \/ (status r = 503%N /\ body r = VObj [(u "error", v)]))).
      { intros g Hg. destruct g as [resp|e] eqn:Eg; simpl.
        - destruct (extractText_normal resp) as [result ->]. simpl.
          eexists _, _. split; [reflexivity|]. left. now split.
        - apply Hcatch. symmetry in Hg. now apply Hp in Hg. }
      destruct (style p); try (now apply Hgen).
      apply Hcatch. reflexivity.
    + apply Hcatch. now apply mapM_to_contents_throws in Ec.
  - eexists _, _. split; [reflexivity|]. right. right. now split.
Qed.

Lemma chat_always_answers_witness :
  exists r v,
    chat no_keys (canned (Throw (Error (u "down")))) (VStr (u "not json"))
    = Normal r
    /\ ((status r = 200%N /\ body r = VObj [(u "result", v)])
        \/ (status r = 500%N /\ body r = VObj [(u "error", v)])
        \/ (status r = 503%N /\ body r = VObj [(u "error", v)])).
Proof.
  apply (chat_always_answers no_keys (canned (Throw (Error (u "down"))))
           (VStr (u "not json"))).
  intros m c e [= <-]. reflexivity.
Defined.

(** X5: the health report and the chat endpoint agree on the credential:
    for a request whose [messages] is an array, [hasKey] is false exactly
    when the chat endpoint answers with status 503. *)
Theorem health_agrees_with_chat env p req_body :
  is_array (messages_of req_body) = true ->
  (property "hasKey" (body (health env)) = VBool false
   <-> exists r, chat env p req_body = Normal r /\ status r = 503%N).
Proof.
  intros Ha. unfold messages_of in Ha. simpl.
  unfold chat, chat_try, getClient.
  destruct (get (or_else req_body (VObj [])) F_messages) as [| | | | |ms|];
    try discriminate.
  destruct (truthy (API_KEY env)); simpl.
  - split; [discriminate|]. intros (r & H & Hs). exfalso.
    destruct (mapM to_contents ms) as [cs|e]; simpl in H.
    + destruct (match style p with
                | UnsupportedStyle =>
                    Throw (Error (u "Unsupported Gemini client instance"))
                | _ => generateContent p (GEMINI_MODEL env) cs
                end) as [resp|e]; simpl in H.
      * destruct (extractText_normal resp) as [v Hv]. rewrite Hv in H.
        simpl in H. injection H as <-. discriminate.
      * unfold member in H. destruct (nullish e); simpl in H;
          [discriminate|]. injection H as <-. discriminate.
    + unfold member in H. destruct (nullish e); simpl in H;
        [discriminate|]. injection H as <-. discriminate.
  - split; [|reflexivity]. intros _. eexists. split; reflexivity.
Qed.

Lemma health_agrees_with_chat_witness :
  property "hasKey" (body (health no_keys)) = VBool false
  <-> exists r,
        chat no_keys (canned (Normal VNull)) (request_of [hi_message]) = Normal r
        /\ status r = 503%N.
Proof.
  apply (health_agrees_with_chat no_keys (canned (Normal VNull))
           (request_of [hi_message])).
  reflexivity.
Defined.

(** ** Relay: start-up *)

Lemma start_first_free env callback_on_error listen attemptsLeft :
  forall port p,
    outcome (start env callback_on_error listen port attemptsLeft) = Ready p
    <-> (port <= p <= port + Z.of_nat attemptsLeft
         /\ listen p = Listens
         /\ forall q, port <= q < p -> in_use (listen q))%Z.
Proof.
  induction attemptsLeft as [|n IH]; intros port p.
  - cbn [start]. destruct (listen port) as [|code|] eqn:L; cbn [outcome].
    + split.
      * intros [= <-]. split; [lia|]. split; [exact L|]. intros q Hq. lia.
      * intros (Hr & _ & _). f_equal. lia.
    + split; [discriminate|]. intros (Hr & Hl & _).
      assert (p = port) by lia. subst p. congruence.
    + split; [discriminate|]. intros (Hr & Hl & _).
      assert (p = port) by lia. subst p. congruence.
  - cbn [start]. destruct (listen port) as [|code|] eqn:L.
    + cbn [outcome]. split.
      * intros [= <-]. split; [lia|]. split; [exact L|]. intros q Hq. lia.
      * intros (Hr & Hl & Hq). f_equal.
        destruct (Z.eq_dec p port) as [->|Hne]; [reflexivity|].
        destruct (Hq port) as (c & Hc & _); [lia|]. congruence.
    + destruct (address_in_use code) eqn:A; cbn [outcome].
      * rewrite IH. split.
        -- intros (Hr & Hl & Hq). split; [lia|]. split; [exact Hl|].
           intros q Hq'. destruct (Z.eq_dec q port) as [->|Hne].
           ++ exists code. now split.
           ++ apply Hq. lia.
        -- intros (Hr & Hl & Hq).
           assert (p <> port) by (intros ->; congruence).
           split; [lia|]. split; [exact Hl|].
           intros q Hq'. apply Hq. lia.
      * split; [discriminate|]. intros (Hr & Hl & Hq). exfalso.
        destruct (Z.eq_dec p port) as [->|Hne]; [congruence|].
        destruct (Hq port) as (c & Hc & Hu); [lia|]. congruence.
    + cbn [outcome]. split; [discriminate|]. intros (Hr & Hl & Hq). exfalso.
      destruct (Z.eq_dec p port) as [->|Hne]; [congruence|].
      destruct (Hq port) as (c & Hc & _); [lia|]. congruence.
Qed.

Lemma start_all_taken env callback_on_error listen attemptsLeft :
  forall port,
    (forall q, port <= q <= port + Z.of_nat attemptsLeft -> in_use (listen q))%Z ->
    start env callback_on_error listen port attemptsLeft
    = {| outcome := Exit1;
         printed :=
           flat_map
             (fun q => on_error_lines env callback_on_error q
                         ++ [in_use_warning q])
             (ports_from port attemptsLeft)
           ++ on_error_lines env callback_on_error
                (port + Z.of_nat attemptsLeft)
           ++ [u "Failed to start server:"] |}.
Proof.
  induction attemptsLeft as [|n IH]; intros port H.
  - destruct (H port) as (c & Hc & Hu); [lia|]. cbn [start]. rewrite Hc.
    cbn [ports_from flat_map app]. unfold on_error_lines.
    replace (port + Z.of_nat 0)%Z with port by lia. reflexivity.
  - destruct (H port) as (c & Hc & Hu); [lia|]. cbn [start].
    rewrite Hc, Hu. rewrite IH by (intros q Hq; apply H; lia).
    cbn [outcome printed ports_from flat_map].
    replace (port + 1 + Z.of_nat n)%Z with (port + Z.of_nat (S n))%Z by lia.
    unfold on_error_lines at 3, in_use_warning at 2.
    f_equal. rewrite <- !app_assoc. reflexivity.
Qed.

(** X6: for ports in the range of exact integers, [start] ends listening
    on [p] exactly when [p] is the first port, counted from [port], that is
    not taken, lies at most [attemptsLeft] ports further, and [app.listen]
    succeeds there: every port before it was reported in use.  This holds
    whether or not [app.listen] runs its callback on errors. *)
Theorem start_ready env callback_on_error listen attemptsLeft port p :
  safe_integer port ->
  safe_integer (port + Z.of_nat attemptsLeft) ->
  outcome (start env callback_on_error listen port attemptsLeft) = Ready p
  <-> (port <= p <= port + Z.of_nat attemptsLeft
       /\ listen p = Listens
       /\ forall q, port <= q < p -> in_use (listen q))%Z.
Proof.
  intros _ _. apply start_first_free.
Qed.

Lemma start_ready_witness :
  (3000 <= 3002 <= 3000 + Z.of_nat 5
   /\ ports_taken [3000; 3001] 3002 = Listens
   /\ forall q, 3000 <= q < 3002 -> in_use (ports_taken [3000; 3001] q))%Z.
Proof.
  apply (start_ready no_keys true (ports_taken [3000; 3001]%Z) 5 3000%Z 3002%Z);
    [split; reflexivity|split; reflexivity|reflexivity].
Defined.

(** X7: for ports in the range of exact integers, when the port and the
    [attemptsLeft] ports after it are all in use, [start] gives up with
    [process.exit(1)], and what it printed is, in this order: for each of
    the first [attemptsLeft] ports the lines of the callback (only when
    [app.listen] runs its callback on errors, as Express 5 does: then
    "Server ready" is printed for a port that is in use) and the warning
    naming the port and the next one; then, for the last port, the lines
    of the callback under the same condition and the failure message. *)
Theorem start_gives_up env callback_on_error listen attemptsLeft port :
  safe_integer port ->
  safe_integer (port + Z.of_nat attemptsLeft) ->
  (forall q, port <= q <= port + Z.of_nat attemptsLeft -> in_use (listen q))%Z ->
  start env callback_on_error listen port attemptsLeft
  = {| outcome := Exit1;
       printed :=
         flat_map
           (fun q => on_error_lines env callback_on_error q
                       ++ [in_use_warning q])
           (ports_from port attemptsLeft)
         ++ on_error_lines env callback_on_error
              (port + Z.of_nat attemptsLeft)
         ++ [u "Failed to start server:"] |}.
Proof.
  intros _ _. apply start_all_taken.
Qed.

Lemma start_gives_up_witness :
  start with_key true (ports_taken [3000; 3001]%Z) 3000 1
  = {| outcome := Exit1;
       printed := [u "Server ready on http://localhost:3000";
                   u "Port 3000 in use, trying 3001...";
                   u "Server ready on http://localhost:3001";
                   u "Failed to start server:"] |}
  /\ start with_key false (ports_taken [3000; 3001]%Z) 3000 1
     = {| outcome := Exit1;
          printed := [u "Port 3000 in use, trying 3001...";
                      u "Failed to start server:"] |}.
Proof.
  assert (H : forall q, (3000 <= q <= 3000 + Z.of_nat 1)%Z ->
                        in_use (ports_taken [3000; 3001]%Z q)).
  { intros q Hq. exists (VStr (u "EADDRINUSE")). split; [|reflexivity].
    unfold ports_taken.
    assert (Hq2 : (q = 3000 \/ q = 3001)%Z) by lia.
    destruct Hq2 as [-> | ->]; reflexivity. }
  split.
  - apply (start_gives_up with_key true (ports_taken [3000; 3001]%Z) 1 3000%Z);
      [split; reflexivity|split; reflexivity|exact H].
  - apply (start_gives_up with_key false (ports_taken [3000; 3001]%Z) 1 3000%Z);
      [split; reflexivity|split; reflexivity|exact H].
Defined.

Lemma digit_cases c :
  is_digit c = true ->
  is_space c = false /\ (c =? ch "-")%N = false /\ (c =? ch "+")%N = false.
Proof.
  unfold is_digit. intros H. apply andb_prop in H. destruct H as [H1 H2].
  apply N.leb_le in H1, H2.
  assert (Hc : (c = 48 \/ c = 49 \/ c = 50 \/ c = 51 \/ c = 52 \/ c = 53
                \/ c = 54 \/ c = 55 \/ c = 56 \/ c = 57)%N) by lia.
  repeat (destruct Hc as [-> | Hc]; [repeat split; reflexivity|]).
  subst c. repeat split; reflexivity.
Qed.

Lemma trim_start_spaces (ws r : jsstring) :
  forallb is_space ws = true ->
  trim_start_by (fun c => c) (ws ++ r) = trim_start_by (fun c => c) r.
Proof.
  induction ws as [|c ws IH]; simpl; [reflexivity|].
  intros H. apply andb_prop in H. destruct H as [Hc Hws].
  rewrite Hc. now apply IH.
Qed.

Lemma leading_digits_app d t :
  forallb is_digit d = true ->
  match t with
  | c :: _ => is_digit c = false
  | [] => True
  end ->
  leading_digits (d ++ t) = d.
Proof.
  induction d as [|c d IH]; simpl; intros Hd Ht.
  - destruct t as [|c t]; [reflexivity|]. simpl. now rewrite Ht.
  - apply andb_prop in Hd. destruct Hd as [Hc Hd]. rewrite Hc.
    f_equal. now apply IH.
Qed.

(** X8: a PORT that holds, after optional white space, a run of at most
    fifteen digits followed by anything that is not a digit gives that run's
    value as the base port, and 3000 when the value is zero. *)
Theorem BASE_PORT_reads_digits ws d t :
  forallb is_space ws = true ->
  forallb is_digit d = true ->
  d <> [] ->
  List.length d <= 15 ->
  match t with
  | c :: _ => is_digit c = false
  | [] => True
  end ->
  BASE_PORT (VStr (ws ++ d ++ t))
  = (if digits_value 0 d =? 0 then 3000 else digits_value 0 d)%Z.
Proof.
  intros Hws Hd Hne _ Ht. unfold BASE_PORT, parseInt10. simpl toString.
  rewrite (trim_start_spaces ws (d ++ t) Hws).
  destruct d as [|c d]; [now elim Hne|].
  pose proof Hd as Hd'. simpl in Hd'. apply andb_prop in Hd'.
  destruct Hd' as [Hc _]. destruct (digit_cases c Hc) as (Hs & Hm & Hp).
  cbn [app trim_start_by]. rewrite Hs, Hm, Hp.
  change (c :: d ++ t) with ((c :: d) ++ t).
  rewrite (leading_digits_app (c :: d) t Hd Ht).
  now rewrite Z.mul_1_l.
Qed.

Lemma BASE_PORT_reads_digits_witness :
  BASE_PORT (VStr (u " 8080abc")) = 8080%Z.
Proof.
  apply (BASE_PORT_reads_digits (u " ") (u "8080") (u "abc"));
    try reflexivity; [discriminate|simpl; lia].
Defined.

(** X9: a PORT that is not set, or holds only white space, or starts after
    its white space with a character that is neither a digit nor a sign,
    gives the base port 3000. *)
Theorem BASE_PORT_default ws :
  forallb is_space ws = true ->
  BASE_PORT VUndef = 3000%Z
  /\ BASE_PORT (VStr ws) = 3000%Z
  /\ forall c t,
       is_space c = false -> is_digit c = false ->
       (c =? ch "-")%N = false -> (c =? ch "+")%N = false ->
       BASE_PORT (VStr (ws ++ c :: t)) = 3000%Z.
Proof.
  intros Hws. split; [reflexivity|]. split.
  - unfold BASE_PORT, parseInt10. simpl toString.
    rewrite <- (app_nil_r ws), (trim_start_spaces ws [] Hws). reflexivity.
  - intros c t Hs Hd Hm Hp. unfold BASE_PORT, parseInt10. simpl toString.
    rewrite (trim_start_spaces ws (c :: t) Hws).
    cbn [trim_start_by]. rewrite Hs, Hm, Hp. cbn [leading_digits].
    now rewrite Hd.
Qed.

Lemma BASE_PORT_default_witness :
  BASE_PORT VUndef = 3000%Z
  /\ BASE_PORT (VStr (u "  ")) = 3000%Z
  /\ forall c t,
       is_space c = false -> is_digit c = false ->
       (c =? ch "-")%N = false -> (c =? ch "+")%N = false ->
       BASE_PORT (VStr (u "  " ++ c :: t)) = 3000%Z.
Proof. apply (BASE_PORT_default (u "  ")). reflexivity. Defined.

(** ** Browser: a submission that is not blank *)

Lemma on_submit_unfold net st :
  str_trim (input_value st) <> [] ->
  on_submit net st
  = setInputEnabled true
      (sendMessage (str_trim (input_value st)) net
         (setInputEnabled false
            (clear_input
               (appendMessage user (str_trim (input_value st)) false st)))).
Proof.
  intros H. unfold on_submit.
  destruct (str_trim (input_value st)); [now elim H|reflexivity].
Qed.

(** X10: a submission that is not blank makes exactly one request, and its
    messages are the whole history so far followed by the trimmed input as
    a user turn. *)
Theorem on_submit_request net st :
  str_trim (input_value st) <> [] ->
  requests (on_submit net st)
  = requests st ++ [history st ++ [user_turn (str_trim (input_value st))]].
Proof.
  intros H. rewrite (on_submit_unfold net st H). unfold sendMessage.
  destruct (receive net) as [[t|]|e]; reflexivity.
Qed.

Lemma on_submit_request_witness :
  requests (on_submit (ok_reply "hello") (typing (u " hi ") empty_page))
  = [[user_turn (u "hi")]].
Proof.
  apply (on_submit_request (ok_reply "hello") (typing (u " hi ") empty_page)).
  discriminate.
Defined.

Lemma last_snoc_map (l : list bubble) (b : bubble) (f : bubble -> bubble) :
  match rev (l ++ [b]) with
  | [] => []
  | x :: before => rev before ++ [f x]
  end = l ++ [f b].
Proof. rewrite rev_app_distr. simpl. now rewrite rev_involutive. Qed.

(** X11: whatever the network does, a submission that is not blank adds
    exactly two bubbles: the user's, holding the rendered markdown of the
    trimmed input, and the bot's, which ends as plain text (the reply, or
    one of the two fixed messages), never as markup; and the input is left
    empty and enabled. *)
Theorem on_submit_display net st :
  str_trim (input_value st) <> [] ->
  let st' := on_submit net st in
  map shown (chatBox st')
  = map shown (chatBox st)
      ++ [InnerHTML (renderMarkdown_html (str_trim (input_value st)));
          TextContent (final_text net)]
  /\ input_value st' = []
  /\ input_disabled st' = false.
Proof.
  intros H. cbv zeta. rewrite (on_submit_unfold net st H).
  unfold sendMessage, final_text, renderMarkdown_html.
  destruct (receive net) as [[t|]|e]; simpl;
    rewrite ?last_snoc_map; simpl; rewrite ?last_snoc_map; simpl;
    rewrite !map_app, <- !app_assoc; simpl; repeat split.
Qed.

Lemma on_submit_display_witness :
  let st' := on_submit (FetchRejected VUndef) (typing (u "a<b") empty_page) in
  map shown (chatBox st')
  = [InnerHTML (u "<p><span>a&lt;b</span></p>");
     TextContent (u "Failed to get response from server.")]
  /\ input_value st' = []
  /\ input_disabled st' = false.
Proof.
  apply (on_submit_display (FetchRejected VUndef) (typing (u "a<b") empty_page)).
  discriminate.
Defined.

(** ** Browser: what the history holds *)

Lemma trim_start_head (s : jsstring) :
  match trim_start_by (fun c => c) s with
  | [] => True
  | c :: _ => is_space c = false
  end.
Proof.
  induction s as [|c t IH]; simpl; [exact I|].
  destruct (is_space c) eqn:E; [exact IH|exact E].
Qed.

Lemma trim_start_fixed (s : jsstring) :
  match s with
  | [] => True
  | c :: _ => is_space c = false
  end ->
  trim_start_by (fun c => c) s = s.
Proof. destruct s as [|c t]; simpl; [reflexivity|]. now intros ->. Qed.

Lemma trim_start_suffix (s : jsstring) :
  exists l, s = l ++ trim_start_by (fun c => c) s.
Proof.
  induction s as [|c t [l E]]; simpl.
  - now exists [].
  - destruct (is_space c).
    + exists (c :: l). simpl. now rewrite <- E.
    + now exists [].
Qed.

(** Trimming twice is trimming once. *)
Lemma str_trim_idempotent (s : jsstring) : str_trim (str_trim s) = str_trim s.
Proof.
  unfold str_trim, trim_by.
  set (a := trim_start_by (fun c => c) s).
  set (b := trim_start_by (fun c => c) (rev a)).
  assert (Ha : match a with [] => True | c :: _ => is_space c = false end)
    by apply trim_start_head.
  assert (Hb : match b with [] => True | c :: _ => is_space c = false end)
    by apply trim_start_head.
  destruct (trim_start_suffix (rev a)) as [l El]. fold b in El.
  assert (E1 : trim_start_by (fun c => c) (rev b) = rev b).
  { apply trim_start_fixed.
    assert (Ea : a = rev b ++ rev l).
    { rewrite <- rev_app_distr, <- El. now rewrite rev_involutive. }
    destruct (rev b) as [|c t] eqn:R; [exact I|].
    rewrite Ea in Ha. exact Ha. }
  rewrite E1, rev_involutive. f_equal. now apply trim_start_fixed.
Qed.

(** X12: the history only ever holds turns that are not empty and carry no
    white space at either end: a submission keeps this, whatever the input
    and whatever the network answers. *)
Theorem on_submit_keeps_tidy net st :
  Forall tidy (history st) -> Forall tidy (history (on_submit net st)).
Proof.
  intros H. unfold on_submit.
  destruct (str_trim (input_value st)) as [|c t] eqn:E; [exact H|].
  cbn [setInputEnabled history]. rewrite sendMessage_history_receive.
  cbn [setInputEnabled clear_input appendMessage history].
  apply Forall_app. split; [exact H|]. constructor.
  - split; simpl; [discriminate|]. rewrite <- E. apply str_trim_idempotent.
  - destruct (receive net) as [[a|]|e] eqn:R; try constructor; [|constructor].
    apply receive_reply in R.
    destruct R as (status & data & r & _ & _ & _ & _ & Hr & Hne).
    split; simpl; [exact Hne|]. rewrite <- Hr. apply str_trim_idempotent.
Qed.

Lemma on_submit_keeps_tidy_witness :
  Forall tidy
    (history (on_submit (ok_reply "  hello ") (typing (u " hi ") empty_page))).
Proof.
  apply (on_submit_keeps_tidy (ok_reply "  hello ")
           (typing (u " hi ") empty_page)).
  constructor.
Defined.

(** X13: nothing that was sent is ever dropped or reordered: if every
    request made so far is a prefix of the history, the same holds after a
    submission, also after a failed exchange, whose user turn stays and is
    sent again with the next request. *)
Theorem on_submit_keeps_prefixes net st :
  requests_are_prefixes st -> requests_are_prefixes (on_submit net st).
Proof.
  intros H. unfold on_submit.
  destruct (str_trim (input_value st)) as [|c t] eqn:E; [exact H|].
  unfold requests_are_prefixes.
  cbn [setInputEnabled history requests].
  rewrite sendMessage_history_receive.
  assert (Hr : requests
                 (sendMessage (c :: t) net
                    (setInputEnabled false
                       (clear_input (appendMessage user (c :: t) false st))))
               = requests st ++ [history st ++ [user_turn (c :: t)]]).
  { unfold sendMessage. destruct (receive net) as [[a|]|e]; reflexivity. }
  rewrite Hr. cbn [setInputEnabled clear_input appendMessage history].
  apply Forall_app. split.
  - eapply Forall_impl; [|exact H]. intros r [l El]. rewrite El.
    eexists. now rewrite <- app_assoc.
  - constructor; [|constructor]. eexists.
    rewrite <- app_assoc. reflexivity.
Qed.

Lemma on_submit_keeps_prefixes_witness :
  requests_are_prefixes
    (on_submit (ok_reply "again")
       (typing (u "two")
          (on_submit (FetchRejected VUndef) (typing (u "one") empty_page)))).
Proof.
  apply (on_submit_keeps_prefixes (ok_reply "again")).
  apply (on_submit_keeps_prefixes (FetchRejected VUndef)).
  constructor.
Defined.

(** ** Browser: the second script *)

Lemma set_placeholder_last v st l sender t :
  chatBox2 st = l ++ [MessageNode sender t; ClearNode] ->
  chatBox2 (set_placeholder v st)
  = l ++ [MessageNode sender (as_text v); ClearNode].
Proof.
  intros E. unfold set_placeholder. simpl. rewrite E, rev_app_distr. simpl.
  now rewrite rev_involutive.
Qed.

Lemma on_submit2_unfold net st :
  str_trim (input_value2 st) <> [] ->
  on_submit2 net st
  = let userMessage := str_trim (input_value2 st) in
    let st1 :=
      record_request2
        (appendMessage2 (u "bot") (u "Thinking...")
           (set_input2 [] true
              (push2 (user_turn2 userMessage)
                 (appendMessage2 (u "user") userMessage st)))) in
    let st2 :=
      match exchange2 net st1 with
      | Normal st' => st'
      | Throw err =>
          console_error2 err (set_placeholder (VStr (u "Network error")) st1)
      end in
    set_input2 (input_value2 st2) false st2.
Proof.
  intros H. unfold on_submit2.
  destruct (str_trim (input_value2 st)); [now elim H|reflexivity].
Qed.

Lemma or_else_text e alt :
  alt <> [] -> as_text (or_else e (VStr alt)) = toString (or_else e (VStr alt)).
Proof.
  intros H. unfold as_text, or_else.
  destruct (truthy e) eqn:T.
  - destruct e; try discriminate; reflexivity.
  - reflexivity.
Qed.

(** X14: in the second script, a reply with a status that is not a success
    never adds a model turn: the history gets the user's turn only.  The
    bot bubble shows the relay's [error] when the body is JSON, not null,
    and holds a truthy one; "Error: " with the status when the body is not
    JSON or is JSON without a truthy [error]; and "Network error" when the
    body is the JSON value null, since reading its [error] throws. *)
Theorem on_submit2_shows_error status json st :
  str_trim (input_value2 st) <> [] ->
  ok status = false ->
  let st' := on_submit2 (FetchResponse status json) st in
  chatBox2 st'
  = chatBox2 st
      ++ [MessageNode (u "user") (str_trim (input_value2 st)); ClearNode;
          MessageNode (u "bot")
            (if nullish (error_data json) then u "Network error"
             else toString (or_else (get (error_data json) F_error)
                              (VStr (u "Error: " ++ numeral status))));
          ClearNode]
  /\ history2 st' = history2 st ++ [user_turn2 (str_trim (input_value2 st))].
Proof.
  intros H Hok. cbv zeta. rewrite (on_submit2_unfold _ st H). cbv zeta.
  unfold exchange2. rewrite Hok. cbn [negb]. fold (error_data json).
  unfold member. destruct (nullish (error_data json)) eqn:Hn; cbn [bind].
  - split; [|reflexivity].
    cbn [set_input2 console_error2 chatBox2].
    rewrite (set_placeholder_last _ _
               (chatBox2 st
                  ++ [MessageNode (u "user") (str_trim (input_value2 st));
                      ClearNode])
               (u "bot") (u "Thinking...")).
    + now rewrite <- app_assoc.
    + simpl. now rewrite <- app_assoc.
  - split; [|reflexivity].
    cbn [set_input2 chatBox2].
    rewrite (set_placeholder_last _ _
               (chatBox2 st
                  ++ [MessageNode (u "user") (str_trim (input_value2 st));
                      ClearNode])
               (u "bot") (u "Thinking...")).
    + rewrite or_else_text by discriminate. now rewrite <- app_assoc.
    + simpl. now rewrite <- app_assoc.
Qed.

Lemma on_submit2_shows_error_witness :
  (let st' :=
     on_submit2 (FetchResponse 503 (Normal (error_body "Missing key")))
       (typing2 (u "hi") empty_page2) in
   chatBox2 st'
   = [MessageNode (u "user") (u "hi"); ClearNode;
      MessageNode (u "bot") (u "Missing key"); ClearNode]
   /\ history2 st' = [user_turn2 (u "hi")])
  /\ (let st' :=
        on_submit2 (FetchResponse 500 (Normal VNull))
          (typing2 (u "hi") empty_page2) in
      chatBox2 st'
      = [MessageNode (u "user") (u "hi"); ClearNode;
         MessageNode (u "bot") (u "Network error"); ClearNode]
      /\ history2 st' = [user_turn2 (u "hi")]).
Proof.
  split.
  - apply (on_submit2_shows_error 503 (Normal (error_body "Missing key"))
             (typing2 (u "hi") empty_page2));
      [discriminate|reflexivity].
  - apply (on_submit2_shows_error 500 (Normal VNull)
             (typing2 (u "hi") empty_page2));
      [discriminate|reflexivity].
Defined.

(** X15: in the second script, a success reply with a JSON body always
    adds a model turn holding [data.result] as it came, also when it is
    missing, empty or not a string; the bot bubble shows its text form. *)
Theorem on_submit2_success status data st :
  str_trim (input_value2 st) <> [] ->
  ok status = true ->
  nullish data = false ->
  let st' := on_submit2 (FetchResponse status (Normal data)) st in
  history2 st'
  = history2 st
      ++ [user_turn2 (str_trim (input_value2 st));
          {| turn_role := model; turn_content := get data F_result |}]
  /\ chatBox2 st'
     = chatBox2 st
         ++ [MessageNode (u "user") (str_trim (input_value2 st)); ClearNode;
             MessageNode (u "bot") (as_text (get data F_result)); ClearNode].
Proof.
  intros H Hok Hn. cbv zeta. rewrite (on_submit2_unfold _ st H). cbv zeta.
  unfold exchange2. rewrite Hok. cbn [negb bind].
  unfold member. rewrite Hn. cbn [bind].
  split.
  - cbn [set_input2 push2 history2 set_placeholder record_request2
         appendMessage2]. now rewrite <- app_assoc.
  - cbn [set_input2 push2 chatBox2].
    rewrite (set_placeholder_last _ _
               (chatBox2 st
                  ++ [MessageNode (u "user") (str_trim (input_value2 st));
                      ClearNode])
               (u "bot") (u "Thinking...")).
    + now rewrite <- app_assoc.
    + simpl. now rewrite <- app_assoc.
Qed.

Lemma on_submit2_success_witness :
  let st' :=
    on_submit2 (FetchResponse 200 (Normal (VObj [])))
      (typing2 (u "hi") empty_page2) in
  history2 st'
  = [user_turn2 (u "hi"); {| turn_role := model; turn_content := VUndef |}]
  /\ chatBox2 st'
     = [MessageNode (u "user") (u "hi"); ClearNode;
        MessageNode (u "bot") []; ClearNode].
Proof.
  apply (on_submit2_success 200 (VObj []) (typing2 (u "hi") empty_page2));
    [discriminate|reflexivity|reflexivity].
Defined.

Lemma exchange2_input net st st' :
  exchange2 net st = Normal st' ->
  input_value2 st' = input_value2 st /\ requests2 st' = requests2 st.
Proof.
  unfold exchange2. destruct net as [err|status json]; [discriminate|].
  destruct (negb (ok status)).
  - destruct (member _ F_error); simpl; [|discriminate].
    intros [= <-]. now split.
  - destruct json as [data|e]; simpl; [|discriminate].
    destruct (member data F_result); simpl; [|discriminate].
    intros [= <-]. now split.
Qed.

(** X16: in the second script, whatever the network does with a
    submission that is not blank, the input ends empty and enabled, and
    exactly one request was made, holding the history so far and the
    trimmed input as a user turn. *)
Theorem on_submit2_restores_input net st :
  str_trim (input_value2 st) <> [] ->
  let st' := on_submit2 net st in
  input_value2 st' = []
  /\ input_disabled2 st' = false
  /\ requests2 st'
     = requests2 st
         ++ [history2 st ++ [user_turn2 (str_trim (input_value2 st))]].
Proof.
  intros H. cbv zeta. rewrite (on_submit2_unfold net st H). cbv zeta.
  destruct (exchange2 net _) as [st2|err] eqn:E.
  - apply exchange2_input in E. destruct E as [E1 E2].
    cbn [set_input2 input_value2 input_disabled2 requests2].
    rewrite E1, E2. now repeat split.
  - now repeat split.
Qed.

Lemma on_submit2_restores_input_witness :
  let st' := on_submit2 (FetchRejected VUndef) (typing2 (u " hi") empty_page2) in
  input_value2 st' = []
  /\ input_disabled2 st' = false
  /\ requests2 st' = [[user_turn2 (u "hi")]].
Proof.
  apply (on_submit2_restores_input (FetchRejected VUndef)
           (typing2 (u " hi") empty_page2)).
  discriminate.
Defined.

(** ** Browser: the theme *)

Lemma str_eqb_eq a b : str_eqb a b = true <-> a = b.
Proof.
  unfold str_eqb. destruct (list_eq_dec N.eq_dec a b); split;
    congruence.
Qed.

Lemma toggle_click_cases st :
  (data_theme st = Some (u "light") /\ toggle_click st = themed "dark")
  \/ (data_theme st <> Some (u "light") /\ toggle_click st = themed "light").
Proof.
  unfold toggle_click. destruct (data_theme st) as [t|] eqn:D.
  - destruct (str_eqb t (u "light")) eqn:E.
    + left. apply str_eqb_eq in E. subst t. now split.
    + right. split; [|reflexivity]. intros [= ->].
      assert (H : str_eqb (u "light") (u "light") = true) by reflexivity.
      congruence.
  - right. split; [discriminate|reflexivity].
Qed.

(** X17: a click on the toggle always leaves the page in one of two
    states, light or dark, in which the attribute, the stored entry, the
    button's text and its class agree; it gives dark exactly when the
    attribute was "light"; and two further clicks come back to the state
    the first click gave. *)
Theorem toggle_click_flips st :
  (toggle_click st = themed "dark" <-> data_theme st = Some (u "light"))
  /\ (toggle_click st = themed "light" <-> data_theme st <> Some (u "light"))
  /\ toggle_click (toggle_click (toggle_click st)) = toggle_click st.
Proof.
  destruct (toggle_click_cases st) as [[D E]|[D E]]; rewrite E.
  - split; [now split|]. split; [|reflexivity].
    split; [discriminate|intros H; now elim H].
  - split; [|split; [now split|reflexivity]].
    split; [discriminate|intros H; now elim D].
Qed.

(** X18: at start a stored theme that is not empty is applied as it is,
    whatever it says, and without one the media query decides; a stored
    theme other than "light" counts as dark for the toggle, whose first
    click then gives light. *)
Theorem initial_theme_stored prefers_light st :
  (forall theme,
     stored_theme st = Some theme -> theme <> [] ->
     data_theme (initial_theme prefers_light st) = Some theme
     /\ stored_theme (initial_theme prefers_light st) = Some theme
     /\ (theme <> u "light" ->
         toggle_click (initial_theme prefers_light st) = themed "light"))
  /\ (stored_theme st = None \/ stored_theme st = Some [] ->
      initial_theme prefers_light st
      = themed (if prefers_light then "light" else "dark")).
Proof.
  split.
  - intros theme Hs Hne. unfold initial_theme. rewrite Hs.
    destruct theme as [|c t]; [now elim Hne|].
    split; [reflexivity|]. split; [reflexivity|].
    intros Hl. destruct (toggle_click_cases (applyTheme (c :: t) st))
      as [[D _]|[_ E]]; [|exact E].
    simpl in D. congruence.
  - intros [Hs|Hs]; unfold initial_theme; rewrite Hs;
      destruct prefers_light; reflexivity.
Qed.

Lemma initial_theme_stored_witness :
  data_theme (initial_theme true (fresh_page (Some (u "blue")))) = Some (u "blue")
  /\ toggle_click (initial_theme true (fresh_page (Some (u "blue"))))
     = themed "light"
  /\ initial_theme false (fresh_page None) = themed "dark".
Proof.
  destruct (initial_theme_stored true (fresh_page (Some (u "blue"))))
    as [H _].
  destruct (H (u "blue") eq_refl) as (H1 & _ & H3); [discriminate|].
  split; [exact H1|]. split; [apply H3; discriminate|].
  apply (proj2 (initial_theme_stored false (fresh_page None))). now left.
Defined.

(** ** Relay: the join branches of the extraction *)

Lemma mapM_text_parts ps :
  Forall (fun p => nullish p = false) ps ->
  mapM (fun p => member p F_text) ps = Normal (map (fun p => get p F_text) ps).
Proof.
  induction 1 as [|p ps Hp _ IH]; simpl; [reflexivity|].
  unfold member at 1. rewrite Hp. simpl. now rewrite IH.
Qed.

Lemma mapM_text_null ps :
  Exists (fun p => nullish p = true) ps ->
  exists e, mapM (fun p => member p F_text) ps = Throw e.
Proof.
  induction 1 as [p ps Hp|p ps _ [e IH]]; simpl.
  - unfold member at 1. rewrite Hp. simpl. eauto.
  - unfold member at 1. destruct (nullish p); simpl; [eauto|].
    rewrite IH. simpl. eauto.
Qed.

(** X19: when neither single-candidate lookup holds a value and the parts
    under [response] are an array without null or undefined elements, the
    extraction returns the texts of the parts that are truthy, in order,
    joined by newlines. *)
Theorem extractText_joins resp ps :
  nullish (first_text (opt resp F_response)) = true ->
  nullish (first_text resp) = true ->
  parts_of (opt resp F_response) = VArr ps ->
  Forall (fun p => nullish p = false) ps ->
  extractText resp
  = Normal (VStr (join_values [nl]
                    (filter truthy (map (fun p => get p F_text) ps)))).
Proof.
  intros H1 H2 Hp Hps. unfold extractText, extractText_body.
  rewrite (coalesce_nullish _ _ H1), (coalesce_nullish _ _ H2), Hp.
  unfold joined_text at 1. cbn [nullish].
  rewrite (mapM_text_parts ps Hps). reflexivity.
Qed.

Lemma extractText_joins_witness :
  extractText
    (in_response
       (candidates_of [VObj []; text_part "a"; VObj [(u "text", VStr [])];
                       text_part "b"]))
  = Normal (VStr (u "a" ++ [nl] ++ u "b")).
Proof.
  apply (extractText_joins
           (in_response
              (candidates_of [VObj []; text_part "a";
                              VObj [(u "text", VStr [])]; text_part "b"]))
           [VObj []; text_part "a"; VObj [(u "text", VStr [])]; text_part "b"]);
    try reflexivity.
  repeat constructor.
Defined.

(** X20: when neither single-candidate lookup holds a value and the parts
    array under [response] holds a null or undefined element, reading its
    text throws inside the [try] block and the extraction returns the JSON
    rendering of the whole response. *)
Theorem extractText_null_part resp ps :
  nullish (first_text (opt resp F_response)) = true ->
  nullish (first_text resp) = true ->
  parts_of (opt resp F_response) = VArr ps ->
  Exists (fun p => nullish p = true) ps ->
  extractText resp = Normal (JSON_stringify resp).
Proof.
  intros H1 H2 Hp Hps. unfold extractText, extractText_body.
  rewrite (coalesce_nullish _ _ H1), (coalesce_nullish _ _ H2), Hp.
  unfold joined_text at 1. cbn [nullish].
  destruct (mapM_text_null ps Hps) as [e ->]. reflexivity.
Qed.

Lemma extractText_null_part_witness :
  extractText (in_response (candidates_of [VObj []; VNull]))
  = Normal (JSON_stringify (in_response (candidates_of [VObj []; VNull]))).
Proof.
  apply (extractText_null_part
           (in_response (candidates_of [VObj []; VNull])) [VObj []; VNull]);
    try reflexivity.
  apply Exists_cons_tl, Exists_cons_hd. reflexivity.
Defined.

(** ** Renderer: the escaping step loses nothing *)

Lemma escape_char_chunk c1 c2 x y :
  plain (escape_char c1) ++ x = plain (escape_char c2) ++ y ->
  c1 = c2 /\ x = y.
Proof.
  unfold escape_char.
  destruct (N.eqb_spec c1 (ch "&")); destruct (N.eqb_spec c2 (ch "&"));
    destruct (N.eqb_spec c1 (ch "<")); destruct (N.eqb_spec c2 (ch "<"));
    destruct (N.eqb_spec c1 (ch ">")); destruct (N.eqb_spec c2 (ch ">"));
    destruct (N.eqb_spec c1 160%N); destruct (N.eqb_spec c2 160%N);
    subst; simpl; intros H;
    try (exfalso;
         match goal with
         | n : ?a <> ?b |- _ => apply n; reflexivity
         end);
    try discriminate H;
    injection H; intros; subst;
    try (exfalso;
         match goal with
         | n : ?a <> ?b |- _ => apply n; reflexivity
         end);
    try (split; congruence).
Qed.

(** X21: the escaping step is injective: two raw strings with the same
    escaped text are the same string. *)
Theorem sanitize_injective a b :
  plain (sanitize a) = plain (sanitize b) -> a = b.
Proof.
  revert b. unfold sanitize, plain.
  induction a as [|c a IH]; intros b H.
  - destruct b as [|d b]; [reflexivity|]. simpl in H. exfalso.
    rewrite map_app in H. unfold escape_char in H.
    destruct (d =? ch "&")%N; [discriminate|].
    destruct (d =? ch "<")%N; [discriminate|].
    destruct (d =? ch ">")%N; [discriminate|].
    destruct (d =? 160)%N; discriminate.
  - destruct b as [|d b].
    + simpl in H. exfalso. rewrite map_app in H. unfold escape_char in H.
      destruct (c =? ch "&")%N; [discriminate|].
      destruct (c =? ch "<")%N; [discriminate|].
      destruct (c =? ch ">")%N; [discriminate|].
      destruct (c =? 160)%N; discriminate.
    + simpl in H. rewrite !map_app in H.
      apply escape_char_chunk in H. destruct H as [-> H].
      f_equal. now apply IH.
Qed.

Lemma sanitize_injective_witness : u "a&lt;" = u "a&lt;".
Proof. apply (sanitize_injective (u "a&lt;") (u "a&lt;")). reflexivity. Defined.

(** ** Renderer: text without markdown *)

Lemma inert_not_terminator c : inert c = true -> is_line_terminator c = false.
Proof.
  unfold inert. intros H. repeat (apply andb_prop in H; destruct H as [H ?]).
  now apply negb_true_iff.
Qed.

Lemma quiet_at_next p c t : quiet_at p (c :: t) -> quiet_at (Some c) t.
Proof.
  intros [H _]. inversion H; subst. split; [assumption|].
  now apply inert_not_terminator.
Qed.

(** Where no match starts, [replace] copies. *)
Lemma replace_from_none multiline r f :
  (forall p s, quiet_at p s -> match_here multiline r p s = None) ->
  forall s p, quiet_at p s -> replace_from multiline r f 0 p s = s.
Proof.
  intros Hnone. induction s as [|c t IH]; intros p Hq; simpl.
  - now rewrite (Hnone p [] Hq).
  - rewrite (Hnone p (c :: t) Hq). f_equal. apply IH.
    exact (quiet_at_next p c t Hq).
Qed.

Lemma quiet_head_char p s c :
  quiet_at p s ->
  inert c = false ->
  forall y,
    ~ char_step (N.eqb c) {| prev := p; rest := s; caps := fun _ => None |} y.
Proof.
  intros [Hs _] Hc y (a & t & R & T & _). simpl in R. subst s.
  apply N.eqb_eq in T. inversion Hs; subst. congruence.
Qed.

Lemma quiet_line_start multiline p s :
  quiet_at p s ->
  at_line_start multiline {| prev := p; rest := s; caps := fun _ => None |} ->
  p = None.
Proof.
  intros [_ Hp] H. unfold at_line_start in H. simpl in H.
  destruct p as [c|]; [|reflexivity].
  rewrite Hp, andb_false_r in H. discriminate.
Qed.

(** A match that starts with a line opener, or with a character that is
    not inert, finds none at the start. *)
Lemma quiet_no_opener s test y :
  quiet_at None s ->
  (forall c, test c = true -> line_opener c = true \/ inert c = false) ->
  ~ char_step test {| prev := None; rest := s; caps := fun _ => None |} y.
Proof.
  intros [Hi Hs] Ht (a & t & R & T & _). simpl in R. subst s.
  destruct Hs as [Ho _]. inversion Hi; subst.
  destruct (Ht _ T); congruence.
Qed.

Ltac no_match_here :=
  let E := fresh "E" in
  let y := fresh "y" in
  match goal with
  | |- match_here ?m ?r ?p ?s = None =>
      destruct (match_here m r p s) as [y|] eqn:E; [exfalso|reflexivity];
      apply match_here_sound in E
  end.

Lemma fence_none p s : quiet_at p s -> match_here false re_fence p s = None.
Proof.
  intros Hq. no_match_here. unfold re_fence in E.
  cbn [seq lit map u list_ascii_of_string matches] in E.
  destruct E as (? & (? & H & _) & _).
  refine (quiet_head_char p s _ Hq _ _ H); reflexivity.
Qed.

Lemma inline_code_none p s :
  quiet_at p s -> match_here false re_inline_code p s = None.
Proof.
  intros Hq. no_match_here. unfold re_inline_code in E.
  cbn [seq matches] in E. destruct E as (? & H & _).
  refine (quiet_head_char p s _ Hq _ _ H); reflexivity.
Qed.

Lemma heading_none hashes p s :
  In hashes ["#"; "##"; "###"]%string ->
  quiet_at p s -> match_here true (re_heading hashes) p s = None.
Proof.
  intros Hin Hq. no_match_here. unfold re_heading in E.
  simpl in Hin. destruct Hin as [<-|[<-|[<-|[]]]];
    cbn [seq lit map u list_ascii_of_string matches] in E;
    destruct E as (? & [Hb ->] & E);
    pose proof (quiet_line_start _ _ _ Hq Hb) as ->.
  - destruct E as (? & H & _).
    apply (quiet_no_opener s _ _ Hq) in H; [exact H|].
    intros c Hc. apply N.eqb_eq in Hc. subst c. now left.
  - destruct E as (? & (? & H & _) & _).
    apply (quiet_no_opener s _ _ Hq) in H; [exact H|].
    intros c Hc. apply N.eqb_eq in Hc. subst c. now left.
  - destruct E as (? & (? & H & _) & _).
    apply (quiet_no_opener s _ _ Hq) in H; [exact H|].
    intros c Hc. apply N.eqb_eq in Hc. subst c. now left.
Qed.

Lemma emphasis_none (delim : string) (c : ascii) p s :
  In (delim, c)
    [("**"%string, "*"%char); ("*"%string, "*"%char);
     ("__"%string, "_"%char); ("_"%string, "_"%char)] ->
  quiet_at p s -> match_here false (re_emphasis delim c) p s = None.
Proof.
  intros Hin Hq. no_match_here. unfold re_emphasis in E. simpl in Hin.
  destruct Hin as [H|[H|[H|[H|[]]]]]; injection H as <- <-;
    cbn [seq lit map u list_ascii_of_string matches] in E.
  - destruct E as (? & (? & H & _) & _).
    refine (quiet_head_char p s _ Hq _ _ H); reflexivity.
  - destruct E as (? & H & _).
    refine (quiet_head_char p s _ Hq _ _ H); reflexivity.
  - destruct E as (? & (? & H & _) & _).
    refine (quiet_head_char p s _ Hq _ _ H); reflexivity.
  - destruct E as (? & H & _).
    refine (quiet_head_char p s _ Hq _ _ H); reflexivity.
Qed.

Lemma link_none p s : quiet_at p s -> match_here false re_link p s = None.
Proof.
  intros Hq. no_match_here. unfold re_link in E.
  cbn [seq matches] in E. destruct E as (? & H & _).
  refine (quiet_head_char p s _ Hq _ _ H); reflexivity.
Qed.

Lemma ul_none p s : quiet_at p s -> match_here true re_ul p s = None.
Proof.
  intros Hq. no_match_here. unfold re_ul in E.
  cbn [seq matches] in E. destruct E as (? & [Hb ->] & E).
  pose proof (quiet_line_start _ _ _ Hq Hb) as ->.
  unfold lazy_plus in E. cbn [matches] in E.
  inversion E as [| |? ? ? y' ? _ Hstep _ _]; subst.
  destruct Hstep as (? & H & _). unfold bullet in H. cbn [matches] in H.
  apply (quiet_no_opener s _ _ Hq) in H; [exact H|].
  intros c Hc. simpl in Hc.
  repeat (apply orb_prop in Hc; destruct Hc as [Hc|Hc]);
    try discriminate Hc; apply N.eqb_eq in Hc; subst c;
    (now left) || (now right).
Qed.

Lemma ol_none p s : quiet_at p s -> match_here true re_ol p s = None.
Proof.
  intros Hq. no_match_here. unfold re_ol in E.
  cbn [seq matches] in E. destruct E as (? & [Hb ->] & E).
  pose proof (quiet_line_start _ _ _ Hq Hb) as ->.
  unfold lazy_plus in E. cbn [matches] in E.
  inversion E as [| |? ? ? y' ? _ Hstep _ _]; subst.
  destruct Hstep as (? & H & _). unfold plus in H. cbn [matches] in H.
  inversion H as [| |? ? ? y'' ? _ Hdigit _ _]; subst.
  apply (quiet_no_opener s _ _ Hq) in Hdigit; [exact Hdigit|].
  intros c Hc. simpl in Hc. rewrite orb_false_r in Hc.
  left. unfold line_opener. now rewrite Hc.
Qed.

Lemma blank_lines_none p s :
  quiet_at p s -> match_here false re_blank_lines p s = None.
Proof.
  intros Hq. no_match_here. unfold re_blank_lines in E. cbn [matches] in E.
  inversion E as [| |? ? ? y' ? _ Hstep _ _]; subst.
  refine (quiet_head_char p s _ Hq _ _ Hstep); reflexivity.
Qed.

Lemma replace_all_none multiline r f s :
  (forall p s, quiet_at p s -> match_here multiline r p s = None) ->
  quiet_at None s -> replace_all multiline r f s = s.
Proof. intros H Hq. now apply replace_from_none. Qed.

(** The steps before the last leave such a text as it is. *)
Lemma early_steps_copy s :
  quiet_at None s ->
  replace_all false re_blank_lines (fun _ _ => markup "</p><p>")
    (ordered_lists
       (unordered_lists
          (links (emphasis (headings (inline_code (code_fences s)))))))
  = s.
Proof.
  intros Hq.
  assert (E1 : code_fences s = s).
  { unfold code_fences, replace_all.
    apply replace_from_none; [exact fence_none|exact Hq]. }
  assert (E2 : inline_code s = s).
  { unfold inline_code, replace_all.
    apply replace_from_none; [exact inline_code_none|exact Hq]. }
  assert (E3 : headings s = s).
  { unfold headings.
    rewrite (replace_all_none true (re_heading "###")),
      (replace_all_none true (re_heading "##")),
      (replace_all_none true (re_heading "#"))
      by (first [exact Hq | intros; apply heading_none; simpl; auto]).
    reflexivity. }
  assert (E4 : emphasis s = s).
  { unfold emphasis.
    rewrite (replace_all_none false (re_emphasis "**" "*")),
      (replace_all_none false (re_emphasis "*" "*")),
      (replace_all_none false (re_emphasis "__" "_")),
      (replace_all_none false (re_emphasis "_" "_"))
      by (first [exact Hq | intros; apply emphasis_none; simpl; auto 6]).
    reflexivity. }
  assert (E5 : links s = s).
  { unfold links, replace_all.
    apply replace_from_none; [exact link_none|exact Hq]. }
  assert (E6 : unordered_lists s = s).
  { unfold unordered_lists, replace_all.
    apply replace_from_none; [exact ul_none|exact Hq]. }
  assert (E7 : ordered_lists s = s).
  { unfold ordered_lists, replace_all.
    apply replace_from_none; [exact ol_none|exact Hq]. }
  rewrite E1, E2, E3, E4, E5, E6, E7. unfold replace_all.
  apply replace_from_none; [exact blank_lines_none|exact Hq].
Qed.

Lemma or_try_none a : or_try a None = a.
Proof. now destruct a. Qed.

(** The lazy run of [.] followed by [$] reads up to the end of a line. *)
Lemma lazy_dots_to_end caps0 (K : continuation) :
  (forall y c t,
     rest y = c :: t -> is_line_terminator (code c) = false -> K y = None) ->
  forall t p fuel,
    Forall (fun c => inert (code c) = true) t ->
    List.length t < fuel ->
    repeat_matcher (match_char (fun c => negb (is_line_terminator c))) false
      fuel 0 None {| prev := p; rest := t; caps := caps0 |} K
    = K {| prev := last_char p t; rest := []; caps := caps0 |}.
Proof.
  intros HK. induction t as [|c t IH]; intros p fuel Ht Hf;
    (destruct fuel as [|fuel]; [simpl in Hf; lia|]); cbn [repeat_matcher].
  - simpl. unfold match_char. simpl. apply or_try_none.
  - inversion Ht as [|? ? Hc Ht']; subst.
    pose proof (inert_not_terminator _ Hc) as Hl.
    cbn [Nat.eqb negb andb].
    rewrite (HK {| prev := p; rest := c :: t; caps := caps0 |} c t eq_refl Hl).
    unfold or_try, match_char. cbn [rest code]. rewrite Hl. cbn [negb].
    cbn [rest caps List.length].
    replace (Nat.eqb (List.length t) (S (List.length t))) with false
      by (symmetry; apply Nat.eqb_neq; lia).
    cbn [Nat.pred dec]. apply IH; [exact Ht'|simpl in Hf; lia].
Qed.

Lemma lazy_plus_dots_to_end caps0 (K : continuation) :
  (forall y c t,
     rest y = c :: t -> is_line_terminator (code c) = false -> K y = None) ->
  forall c t p fuel,
    Forall (fun c => inert (code c) = true) (c :: t) ->
    S (List.length t) < fuel ->
    repeat_matcher (match_char (fun c => negb (is_line_terminator c))) false
      fuel 1 None {| prev := p; rest := c :: t; caps := caps0 |} K
    = K {| prev := last_char (Some c) t; rest := []; caps := caps0 |}.
Proof.
  intros HK c t p fuel Ht Hf. destruct fuel as [|fuel]; [lia|].
  inversion Ht as [|? ? Hc Ht']; subst.
  pose proof (inert_not_terminator _ Hc) as Hl.
  cbn [repeat_matcher Nat.eqb negb]. unfold match_char at 1.
  cbn [rest code]. rewrite Hl. cbn [negb andb Nat.pred dec caps].
  apply lazy_dots_to_end; [exact HK|exact Ht'|lia].
Qed.

Lemma line_matches_whole c t :
  quiet_at None (c :: t) ->
  exists y,
    match_here true re_line None (c :: t) = Some y /\ rest y = [].
Proof.
  intros [Hi _].
  unfold match_here, re_line. cbn [seq compile prev lazy_plus rest].
  rewrite lazy_plus_dots_to_end.
  - cbn [rest set_cap]. eexists. split; reflexivity.
  - intros y c' t' R Hl'. cbn [rest set_cap]. rewrite R, Hl'. reflexivity.
  - exact Hi.
  - simpl. lia.
Qed.

Lemma replace_from_skip multiline r f t :
  forall p,
    replace_from multiline r f (List.length t) p t
    = replace_from multiline r f 0 (last_char p t) [].
Proof.
  induction t as [|c t IH]; intros p; [reflexivity|].
  cbn [List.length replace_from]. apply IH.
Qed.

Lemma last_char_quiet c t :
  Forall (fun c => inert (code c) = true) (c :: t) ->
  exists d, last_char (Some c) t = Some d /\ is_line_terminator (code d) = false.
Proof.
  revert c. induction t as [|d t IH]; intros c H; simpl.
  - exists c. split; [reflexivity|]. inversion H; subst.
    now apply inert_not_terminator.
  - apply IH. now inversion H.
Qed.

(** The last step wraps a line without markdown into one span. *)
Lemma paragraph_line c t :
  quiet_at None (c :: t) ->
  replace_all true re_line
    (fun line _ =>
       if starts_with_lt line then line
       else markup "<span>" ++ line ++ markup "</span>")
    (c :: t)
  = markup "<span>" ++ (c :: t) ++ markup "</span>".
Proof.
  intros Hq. destruct (line_matches_whole c t Hq) as (y & Hy & Hr).
  unfold replace_all. cbn [replace_from]. rewrite Hy.
  unfold matched. rewrite Hr. cbn [List.length Nat.sub].
  change (firstn (S (List.length t)) (c :: t))
    with (firstn (List.length (c :: t)) (c :: t)).
  rewrite (firstn_all (c :: t)).
  destruct Hq as [Hi [_ Hlt]]. cbn [starts_with_lt]. rewrite Hlt.
  rewrite replace_from_skip.
  destruct (last_char_quiet c t Hi) as (d & -> & Hd).
  cbn [replace_from]. unfold match_here, re_line. cbn [seq compile prev].
  rewrite Hd. cbn [andb]. apply app_nil_r.
Qed.

Lemma escape_char_inert c :
  inert c = true -> Forall (fun a => inert (code a) = true) (escape_char c).
Proof.
  intros H. unfold escape_char.
  destruct (c =? ch "&")%N; [repeat constructor|].
  destruct (c =? ch "<")%N; [repeat constructor|].
  destruct (c =? ch ">")%N; [repeat constructor|].
  destruct (c =? 160)%N; repeat constructor. exact H.
Qed.

Lemma sanitize_quiet raw : no_markdown raw -> quiet_at None (sanitize raw).
Proof.
  intros [Hi Hs]. split.
  - clear Hs. unfold sanitize. induction raw as [|c t IH]; simpl; [constructor|].
    simpl in Hi. apply andb_prop in Hi. destruct Hi as [Hc Ht].
    apply Forall_app. split; [now apply escape_char_inert|now apply IH].
  - destruct raw as [|c t]; [exact I|]. unfold sanitize. simpl.
    unfold escape_char.
    destruct (c =? ch "&")%N; [now split|].
    destruct (c =? ch "<")%N eqn:E; [now split|].
    destruct (c =? ch ">")%N; [now split|].
    destruct (c =? 160)%N; [now split|]. simpl. now split.
Qed.

(** X22: a raw string that is not empty and holds no markdown (inert
    characters only, not starting with a digit, "#", "-" or "+") renders
    as one paragraph holding one span with the escaped text and nothing
    else. *)
Theorem renderMarkdown_plain_text raw :
  no_markdown raw ->
  raw <> [] ->
  renderMarkdown_html raw
  = u "<p><span>" ++ plain (sanitize raw) ++ u "</span></p>".
Proof.
  intros Hn Hne. pose proof (sanitize_quiet raw Hn) as Hq.
  unfold renderMarkdown_html, renderMarkdown. cbv zeta. unfold paragraphs.
  rewrite (early_steps_copy _ Hq).
  destruct (sanitize raw) as [|c t] eqn:E.
  - exfalso. destruct raw as [|d raw]; [now elim Hne|].
    unfold sanitize in E. simpl in E. apply app_eq_nil in E.
    destruct E as [E _]. unfold escape_char in E.
    destruct (d =? ch "&")%N; [discriminate|].
    destruct (d =? ch "<")%N; [discriminate|].
    destruct (d =? ch ">")%N; [discriminate|].
    destruct (d =? 160)%N; discriminate.
  - rewrite (paragraph_line c t Hq). unfold plain, markup, from.
    rewrite !map_app, !map_map. simpl. rewrite <- app_assoc.
    reflexivity.
Qed.

Lemma renderMarkdown_plain_text_witness :
  renderMarkdown_html (u "Tom & Jerry <3")
  = u "<p><span>" ++ plain (sanitize (u "Tom & Jerry <3")) ++ u "</span></p>".
Proof.
  apply renderMarkdown_plain_text; [split; reflexivity|discriminate].
Defined.
